(** * Simplex schedulers of CIRCT (lib/Scheduling/SimplexSchedulers.cpp)

    A shallow embedding of the lexico-parametric dual simplex solver that
    schedules the acyclic [Problem] and the resource-free [CyclicProblem],
    together with the properties its specification states about it.

    Conventions of the embedding.
    - C++ [int] values are mathematical integers [Z].  Signed overflow is
      undefined in C++, so the model describes the runs in which every [int]
      value fits its type; [/] on [int] truncates towards zero and is
      [Z.quot].
    - [unsigned] arithmetic and the conversions between [unsigned] and [int]
      are defined and wrap modulo [2^32]: [toUnsigned] and [toInt] write them
      out where the source negates the [unsigned] latency and stores it and
      the [unsigned] distance in the [int] tableau.  The two conversions from
      [int] back to [unsigned], of a start time in [storeStartTimes] and of
      [parameterT] in [CyclicSimplexScheduler::schedule], meet values that
      are not negative on every successful run and are the identity on them.
    - [SmallVector<T>] is [seq T]; [v[i]] is [nth] with the element type's
      zero as default and [v[i] = x] is [set_nth].  Indexing past the end is
      undefined in the source; the model reads the default there and extends
      the vector on a write.
    - [assert] is compiled out (release semantics): the asserted conditions
      are stated and proved as lemmas about the reachable states instead.
    - The [while] loop of [solveTableau] is iterated by a fuel argument;
      [None] means the fuel ran out before the loop returned. *)

From HB Require Import structures.
From mathcomp Require Import ssreflect ssrfun ssrbool eqtype ssrnat seq.
From mathcomp Require Import choice fintype bigop ssralg matrix.
From Stdlib Require Import ZArith Lia.

Set Implicit Arguments.
Unset Strict Implicit.
Unset Printing Implicit Defensive.

(** ** The external problem *)

(** Operations are opaque handles ([Operation *] in the source), compared by
    identity. *)
Definition Operation := nat.
Definition OperatorType := nat.

Inductive LogicalResult := success | failure.

Definition failed (r : LogicalResult) : bool :=
  match r with failure => true | success => false end.

(** Modelled from the spec: [detail::Dependence] (Problem.h is not among the
    sources) is a directed edge from a source to a destination operation. *)
Record Dependence := Dep {
  getSource : Operation;
  getDestination : Operation
}.

(** Modelled from the spec: the read and write-back interface of [Problem]
    (Problem.h is not among the sources).  Operations are enumerated in a
    stable order, each with its incoming dependences; the latency is looked
    up through the operator type linked to an operation (the source
    dereferences both [Optional]s unchecked, so they are total here); the
    start times are the solution written back by [setStartTime]. *)
Record Problem := {
  getOperations : seq Operation;
  getDependences : Operation -> seq Dependence;
  getLinkedOperatorType : Operation -> OperatorType;
  getLatency : OperatorType -> Z;
  getStartTime : Operation -> option Z
}.

(** Modelled from the spec: [CyclicProblem] extends [Problem] by an optional
    distance per dependence and by the initiation interval, written back by
    [setInitiationInterval]. *)
Record CyclicProblem := {
  baseProblem :> Problem;
  getDistance : Dependence -> option Z;
  getInitiationInterval : option Z
}.

Definition setStartTime (prob : Problem) (op : Operation) (val : Z) : Problem :=
  {| getOperations := getOperations prob;
     getDependences := getDependences prob;
     getLinkedOperatorType := getLinkedOperatorType prob;
     getLatency := getLatency prob;
     getStartTime := fun o => if o == op then Some val else getStartTime prob o |}.

Definition setInitiationInterval (prob : CyclicProblem) (val : Z) : CyclicProblem :=
  {| baseProblem := baseProblem prob;
     getDistance := getDistance prob;
     getInitiationInterval := Some val |}.

(** ** The scheduler object *)

Record SimplexSchedulerBase := Scheduler {
  parameterT : Z;
  tableau : seq (seq Z);
  implicitBasicVariableColumnVector : seq Z;
  nonBasicVariables : seq nat;
  basicVariables : seq nat;
  nRows : nat;
  nColumns : nat
}.

Definition objectiveRow : nat := 0.
Definition firstConstraintRow : nat := 1.
Definition parameter1Column : nat := 0.
Definition parameterTColumn : nat := 1.
Definition firstNonBasicVariableColumn : nat := 2.

(** [tableau[r][c]] and [tableau[r][c] = v]. *)
Definition entry (t : seq (seq Z)) (r c : nat) : Z := nth 0%Z (nth [::] t r) c.

Definition set_entry (t : seq (seq Z)) (r c : nat) (v : Z) : seq (seq Z) :=
  set_nth [::] t r (set_nth 0%Z (nth [::] t r) c v).

Definition with_tableau (s : SimplexSchedulerBase) (t : seq (seq Z)) :=
  Scheduler (parameterT s) t (implicitBasicVariableColumnVector s)
    (nonBasicVariables s) (basicVariables s) (nRows s) (nColumns s).

Definition with_implicit (s : SimplexSchedulerBase) (v : seq Z) :=
  Scheduler (parameterT s) (tableau s) v
    (nonBasicVariables s) (basicVariables s) (nRows s) (nColumns s).

Definition with_parameterT (s : SimplexSchedulerBase) (T : Z) :=
  Scheduler T (tableau s) (implicitBasicVariableColumnVector s)
    (nonBasicVariables s) (basicVariables s) (nRows s) (nColumns s).

(** [for (unsigned i = lo; i < hi; ++i) body(i)] on a state [S]. *)
Definition for_range {S : Type} (lo hi : nat) (body : nat -> S -> S) (s : S) : S :=
  foldl (fun acc i => body i acc) s (iota lo (hi - lo)).

(** [SmallDenseMap<Operation *, unsigned>]: [operator[]] yields the
    value-initialised 0 for a key that was never stored. *)
Definition OpColumns := Operation -> nat.
Definition emptyOpColumns : OpColumns := fun _ => 0.
Definition setOpColumn (m : OpColumns) (op : Operation) (c : nat) : OpColumns :=
  fun o => if o == op then c else m o.

(** ** Machine integers *)

(** The value of an [unsigned] (32 bits) and of an [int] (32 bits, two's
    complement) that an integer is reduced to. *)
Definition toUnsigned (z : Z) : Z := (z mod 2 ^ 32)%Z.

Definition toInt (z : Z) : Z := ((z + 2 ^ 31) mod 2 ^ 32 - 2 ^ 31)%Z.

(** ** Tableau construction *)

(** [latency] is an [unsigned]: [-latency] is taken modulo [2^32] and
    converted to [int] when it is stored in the row. *)
Definition fillConstraintRow (prob : Problem) (row : seq Z) (dep : Dependence)
    (opColumns : OpColumns) : seq Z :=
  let src := getSource dep in
  let dst := getDestination dep in
  let latency := toUnsigned (getLatency prob (getLinkedOperatorType prob src)) in
  let row := set_nth 0%Z row parameter1Column (toInt (toUnsigned (- latency))) in
  let row := set_nth 0%Z row (opColumns src) 1%Z in
  set_nth 0%Z row (opColumns dst) (-1)%Z.

(** The distance is an [unsigned] as well, converted to [int] in the row. *)
Definition cyclicFillConstraintRow (prob : CyclicProblem) (row : seq Z)
    (dep : Dependence) (opColumns : OpColumns) : seq Z :=
  let row := fillConstraintRow prob row dep opColumns in
  match getDistance prob dep with
  | Some dist => set_nth 0%Z row parameterTColumn (toInt (toUnsigned dist))
  | None => row
  end.

(** The virtual [fillConstraintRow] is a parameter of [buildTableau]. *)
Definition FillRow := seq Z -> Dependence -> OpColumns -> seq Z.

(** First loop of [buildTableau]: columns and variable numbers of the
    operations' start times. *)
Definition assignColumns (ops : seq Operation) : OpColumns * seq nat * nat :=
  foldl (fun acc op =>
           let '(opCols, nonBasic, varNum) := acc in
           (setOpColumn opCols op (firstNonBasicVariableColumn + varNum),
            rcons nonBasic varNum, varNum.+1))
        (emptyOpColumns, [::], 0) ops.

(** Second loop of [buildTableau]: one row and one basic slack variable per
    dependence. *)
Definition addConstraintRows (prob : Problem) (fill : FillRow) (opCols : OpColumns)
    (nCols : nat) (init : seq (seq Z) * seq Z * seq nat * nat) :=
  foldl (fun acc op =>
           foldl (fun acc dep =>
                    let '(tab, implicit, basic, varNum) := acc in
                    (rcons tab (fill (nseq nCols 0%Z) dep opCols),
                     rcons implicit 0%Z, rcons basic varNum, varNum.+1))
                 acc (getDependences prob op))
        init (getOperations prob).

Definition buildTableau (prob : Problem) (fill : FillRow) (lastOp : Operation)
    (T : Z) : SimplexSchedulerBase :=
  let '(opCols, nonBasic, varNum) := assignColumns (getOperations prob) in
  let nCols := 2 + size nonBasic in
  let objRowVec := set_nth 0%Z (nseq nCols 0%Z) (opCols lastOp) 1%Z in
  let '(tab, implicit, basic, _) :=
    addConstraintRows prob fill opCols nCols ([:: objRowVec], [:: 0%Z], [::], varNum) in
  Scheduler T tab implicit nonBasic basic (size tab) nCols.

(** ** Pivot selection *)

Definition rowValue (s : SimplexSchedulerBase) (row : nat) : Z :=
  (entry (tableau s) row parameter1Column
   + entry (tableau s) row parameterTColumn * parameterT s)%Z.

(** The scan of [findPivotRow], [n] rows remaining from [row] on. *)
Fixpoint findPivotRowFrom (s : SimplexSchedulerBase) (row n : nat) : option nat :=
  match n with
  | 0 => None
  | n'.+1 => if (rowValue s row <? 0)%Z then Some row
             else findPivotRowFrom s row.+1 n'
  end.

Definition findPivotRow (s : SimplexSchedulerBase) : option nat :=
  findPivotRowFrom s firstConstraintRow (nRows s - firstConstraintRow).

(** One iteration of the loop of [findPivotColumn] on the pair
    [(maxQuot, pivotCol)]. *)
Definition pivotColumnStep (s : SimplexSchedulerBase) (pivotRow : nat) (col : nat)
    (acc : option Z * option nat) : option Z * option nat :=
  let pivotCand := entry (tableau s) pivotRow col in
  if (pivotCand <? 0)%Z then
    let quot := (- entry (tableau s) objectiveRow col)%Z in
    match acc.1 with
    | None => (Some quot, Some col)
    | Some maxQuot => if (maxQuot <? quot)%Z then (Some quot, Some col) else acc
    end
  else acc.

Definition findPivotColumn (s : SimplexSchedulerBase) (pivotRow : nat) : option nat :=
  (for_range firstNonBasicVariableColumn (nColumns s)
     (pivotColumnStep s pivotRow) (None, None)).2.

(** ** Row operations and the pivot *)

Definition multiplyRow (s : SimplexSchedulerBase) (row : nat) (factor : Z) :=
  let s := for_range 0 (nColumns s)
             (fun col s => with_tableau s
                (set_entry (tableau s) row col (entry (tableau s) row col * factor)%Z)) s in
  with_implicit s
    (set_nth 0%Z (implicitBasicVariableColumnVector s) row
       (nth 0%Z (implicitBasicVariableColumnVector s) row * factor)%Z).

Definition addMultipleOfRow (s : SimplexSchedulerBase) (sourceRow : nat) (factor : Z)
    (targetRow : nat) :=
  let s := for_range 0 (nColumns s)
             (fun col s => with_tableau s
                (set_entry (tableau s) targetRow col
                   (entry (tableau s) targetRow col
                    + entry (tableau s) sourceRow col * factor)%Z)) s in
  with_implicit s
    (set_nth 0%Z (implicitBasicVariableColumnVector s) targetRow
       (nth 0%Z (implicitBasicVariableColumnVector s) targetRow
        + nth 0%Z (implicitBasicVariableColumnVector s) sourceRow * factor)%Z).

(** [std::swap(nonBasicVariables[j], basicVariables[i])]. *)
Definition swapVariables (s : SimplexSchedulerBase) (j i : nat) :=
  Scheduler (parameterT s) (tableau s) (implicitBasicVariableColumnVector s)
    (set_nth 0 (nonBasicVariables s) j (nth 0 (basicVariables s) i))
    (set_nth 0 (basicVariables s) i (nth 0 (nonBasicVariables s) j))
    (nRows s) (nColumns s).

Definition pivot (s : SimplexSchedulerBase) (pivotRow pivotColumn : nat) :=
  let s := with_implicit s
             (set_nth 0%Z (implicitBasicVariableColumnVector s) pivotRow 1%Z) in
  let s := multiplyRow s pivotRow (-1)%Z in
  let s := for_range 0 (nRows s)
             (fun row s =>
                if row == pivotRow then s
                else let elem := entry (tableau s) row pivotColumn in
                     if (elem =? 0)%Z then s
                     else addMultipleOfRow s pivotRow (- elem)%Z row) s in
  let s := for_range 0 (nRows s)
             (fun row s =>
                let s := with_tableau s
                           (set_entry (tableau s) row pivotColumn
                              (nth 0%Z (implicitBasicVariableColumnVector s) row)) in
                with_implicit s
                  (set_nth 0%Z (implicitBasicVariableColumnVector s) row 0%Z)) s in
  swapVariables s (pivotColumn - firstNonBasicVariableColumn)
                  (pivotRow - firstConstraintRow).

(** ** The solve loop *)

Inductive LoopStep :=
  | Continue (s : SimplexSchedulerBase)
  | Return (r : LogicalResult).

(** One evaluation of the loop condition and body of [solveTableau]. *)
Definition solveStep (s : SimplexSchedulerBase) : LoopStep :=
  match findPivotRow s with
  | None => Return success
  | Some pivotRow =>
    match findPivotColumn s pivotRow with
    | Some pivotCol => Continue (pivot s pivotRow pivotCol)
    | None =>
      let entry1Col := entry (tableau s) pivotRow parameter1Column in
      let entryTCol := entry (tableau s) pivotRow parameterTColumn in
      if (0 <? entryTCol)%Z then
        Continue (with_parameterT s (Z.quot (- entry1Col - 1) entryTCol + 1)%Z)
      else Return failure
    end
  end.

Fixpoint solveTableau (fuel : nat) (s : SimplexSchedulerBase)
    : option (LogicalResult * SimplexSchedulerBase) :=
  match fuel with
  | 0 => None
  | fuel'.+1 =>
    match solveStep s with
    | Continue s' => solveTableau fuel' s'
    | Return r => Some (r, s)
    end
  end.

(** ** Result extraction *)

(** The calls [prob.setStartTime(op, value)] of [storeStartTimes], in the
    order the two loops issue them. *)
Definition startTimeWrites (ops : seq Operation) (s : SimplexSchedulerBase)
    : seq (Operation * Z) :=
  let nOps := size ops in
  for_range 0 (size (basicVariables s))
    (fun i ws =>
       let varNum := nth 0 (basicVariables s) i in
       if varNum < nOps then
         rcons ws (nth 0 ops varNum, rowValue s (firstConstraintRow + i))
       else ws) [::]
  ++
  for_range 0 (size (nonBasicVariables s))
    (fun i ws =>
       let varNum := nth 0 (nonBasicVariables s) i in
       if varNum < nOps then rcons ws (nth 0 ops varNum, 0%Z) else ws) [::].

Definition storeStartTimes (prob : Problem) (s : SimplexSchedulerBase) : Problem :=
  foldl (fun p w => setStartTime p w.1 w.2) prob
        (startTimeWrites (getOperations prob) s).

(** ** The two schedulers *)

(** [SimplexScheduler::schedule]; on failure the diagnostic is emitted on the
    containing operation and the problem is left as it was. *)
Definition SimplexScheduler_schedule (fuel : nat) (prob : Problem) (lastOp : Operation)
    : option (LogicalResult * Problem) :=
  let s := buildTableau prob (fillConstraintRow prob) lastOp 0%Z in
  match solveTableau fuel s with
  | None => None
  | Some (failure, _) => Some (failure, prob)
  | Some (success, s') => Some (success, storeStartTimes prob s')
  end.

Definition withBase (prob : CyclicProblem) (base : Problem) : CyclicProblem :=
  {| baseProblem := base;
     getDistance := getDistance prob;
     getInitiationInterval := getInitiationInterval prob |}.

Definition CyclicSimplexScheduler_schedule (fuel : nat) (prob : CyclicProblem)
    (lastOp : Operation) : option (LogicalResult * CyclicProblem) :=
  let s := buildTableau prob (cyclicFillConstraintRow prob) lastOp 1%Z in
  match solveTableau fuel s with
  | None => None
  | Some (failure, _) => Some (failure, prob)
  | Some (success, s') =>
    let prob := setInitiationInterval prob (parameterT s') in
    Some (success, withBase prob (storeStartTimes prob s'))
  end.

(** The two public overloads of [scheduleSimplex], for a [Problem] and for a
    [CyclicProblem]. *)
Definition scheduleSimplex := SimplexScheduler_schedule.
Definition scheduleSimplexCyclic := CyclicSimplexScheduler_schedule.

(** ** Canonical structures *)

(** [Z] as a commutative ring of MathComp, for sums and determinants. *)
Definition Z_code (z : Z) : bool * nat := (Z.ltb z 0, Z.abs_nat z).

Definition Z_decode (p : bool * nat) : Z :=
  if p.1 then Z.opp (Z.of_nat p.2) else Z.of_nat p.2.

Lemma Z_codeK : cancel Z_code Z_decode.
Proof.
move=> z; rewrite /Z_code /Z_decode /=.
by case: (Z.ltb_spec z 0) => H; rewrite Zabs2Nat.id_abs; lia.
Qed.

HB.instance Definition _ := Countable.copy Z (can_type Z_codeK).

HB.instance Definition _ :=
  GRing.isZmodule.Build Z Z.add_assoc Z.add_comm Z.add_0_l Z.add_opp_diag_l.

HB.instance Definition _ :=
  GRing.Zmodule_isComPzRing.Build Z
    Z.mul_assoc Z.mul_comm Z.mul_1_l Z.mul_add_distr_r.

(** Dependences are compared by their end points. *)
Definition Dependence_code (d : Dependence) : Operation * Operation :=
  (getSource d, getDestination d).

Definition Dependence_decode (p : Operation * Operation) : Dependence :=
  Dep p.1 p.2.

Lemma Dependence_codeK : cancel Dependence_code Dependence_decode.
Proof. by case. Qed.

HB.instance Definition _ :=
  Equality.copy Dependence (can_type Dependence_codeK).

Import GRing.Theory.

(** ** Specification vocabulary *)

(** Arithmetic on [nat] stated with the boolean comparisons, by [lia]. *)
Ltac nat_lia :=
  repeat match goal with
  | H : is_true (_ && _) |- _ =>
      let H1 := fresh in let H2 := fresh in case/andP: H => H1 H2
  | H : is_true (_ < _) |- _ => move/ltP: H; rewrite -?plusE -?minusE -?multE => H
  | H : is_true (_ <= _) |- _ => move/leP: H; rewrite -?plusE -?minusE -?multE => H
  | H : is_true (_ == _ :> nat) |- _ =>
      move/eqP: H; rewrite -?plusE -?minusE -?multE => H
  end;
  try (apply/andP; split);
  try apply/ltP; try apply/leP; try apply/eqP;
  rewrite -?plusE -?minusE -?multE; lia.

Definition impl (s : SimplexSchedulerBase) (i : nat) : Z :=
  nth 0%Z (implicitBasicVariableColumnVector s) i.

Definition tab (s : SimplexSchedulerBase) (r c : nat) : Z := entry (tableau s) r c.

Definition same_frame (s s' : SimplexSchedulerBase) : Prop :=
  [/\ parameterT s' = parameterT s,
      nonBasicVariables s' = nonBasicVariables s,
      basicVariables s' = basicVariables s,
      nRows s' = nRows s &
      nColumns s' = nColumns s].

(** All dependences of the problem, in the order [buildTableau] visits them. *)
Definition allDependences (prob : Problem) : seq Dependence :=
  flatten [seq getDependences prob op | op <- getOperations prob].

Definition opColumnsOf (ops : seq Operation) : OpColumns := (assignColumns ops).1.1.

Definition objectiveRowOf (prob : Problem) (lastOp : Operation) : seq Z :=
  set_nth 0%Z (nseq (2 + size (getOperations prob)) 0%Z)
    (opColumnsOf (getOperations prob) lastOp) 1%Z.

(** [r] is the first violated constraint row of [s]. *)
Definition firstViolatedRow (s : SimplexSchedulerBase) (r : nat) : Prop :=
  [/\ firstConstraintRow <= r < nRows s,
      (rowValue s r < 0)%Z
    & forall r', firstConstraintRow <= r' < r -> (0 <= rowValue s r')%Z].

Definition noViolatedRow (s : SimplexSchedulerBase) : Prop :=
  forall r', firstConstraintRow <= r' < nRows s -> (0 <= rowValue s r')%Z.

(** [c] is the pivot column the specification selects in row [pivotRow]: a
    non-basic-variable column with a negative entry whose negated objective
    entry is maximal, the leftmost such. *)
Definition bestPivotColumn (s : SimplexSchedulerBase) (pivotRow c : nat) : Prop :=
  [/\ firstNonBasicVariableColumn <= c < nColumns s,
      (tab s pivotRow c < 0)%Z,
      forall c', firstNonBasicVariableColumn <= c' < nColumns s ->
        (tab s pivotRow c' < 0)%Z ->
        (- tab s objectiveRow c' <= - tab s objectiveRow c)%Z
    & forall c', firstNonBasicVariableColumn <= c' < c ->
        (tab s pivotRow c' < 0)%Z ->
        (- tab s objectiveRow c' < - tab s objectiveRow c)%Z].

Definition noPivotColumn (s : SimplexSchedulerBase) (pivotRow : nat) : Prop :=
  forall c', firstNonBasicVariableColumn <= c' < nColumns s ->
    (0 <= tab s pivotRow c')%Z.

Definition pivotColumnInv (s : SimplexSchedulerBase) (pivotRow col : nat)
    (acc : option Z * option nat) : Prop :=
  match acc with
  | (None, None) =>
      forall c', firstNonBasicVariableColumn <= c' < col -> (0 <= tab s pivotRow c')%Z
  | (Some q, Some c) =>
      [/\ q = (- tab s objectiveRow c)%Z,
          firstNonBasicVariableColumn <= c < col,
          (tab s pivotRow c < 0)%Z,
          forall c', firstNonBasicVariableColumn <= c' < col ->
            (tab s pivotRow c' < 0)%Z -> (- tab s objectiveRow c' <= q)%Z
        & forall c', firstNonBasicVariableColumn <= c' < c ->
            (tab s pivotRow c' < 0)%Z -> (- tab s objectiveRow c' < q)%Z]
  | _ => False
  end.

(** [solveReaches s0 s]: the loop of [solveTableau] started in [s0] is at the
    head of an iteration in state [s]. *)
Inductive solveReaches (s0 : SimplexSchedulerBase) : SimplexSchedulerBase -> Prop :=
  | reaches_start : solveReaches s0 s0
  | reaches_next s s' :
      solveReaches s0 s -> solveStep s = Continue s' -> solveReaches s0 s'.

(** The state after [n] further iterations of the loop, if it runs that long. *)
Fixpoint iterSteps (n : nat) (s : SimplexSchedulerBase) : option SimplexSchedulerBase :=
  match n with
  | 0 => Some s
  | n'.+1 => match solveStep s with
             | Continue s' => iterSteps n' s'
             | Return _ => None
             end
  end.

(** Ceiling of [a / b] for a positive divisor. *)
Definition ceilDiv (a b : Z) : Z := (- ((- a) / b))%Z.

(** The value [solveTableau] assigns to [parameterT] when it grows it. *)
Definition grownParameterT (entry1Col entryTCol : Z) : Z :=
  (Z.quot (- entry1Col - 1) entryTCol + 1)%Z.

(** The row on which [solveTableau] gives up: selected as pivot row, without
    pivot column, and with a non-positive entry in the [parameterT] column. *)
Definition infeasibleRow (s : SimplexSchedulerBase) (row : nat) : Prop :=
  [/\ firstViolatedRow s row, noPivotColumn s row
    & (tab s row parameterTColumn <= 0)%Z].

Definition growState : SimplexSchedulerBase :=
  Scheduler 1%Z [:: [:: 0; 0; 1]; [:: -4; 1; 0]]%Z [:: 0; 0]%Z [:: 0] [:: 1] 2 3.

(** The acyclic problem with operations 0 and 1 of latency 5 that depend on
    each other. *)
Definition twoCycleProblem : Problem :=
  {| getOperations := [:: 0; 1];
     getDependences := fun op => if op == 0 then [:: Dep 1 0] else [:: Dep 0 1];
     getLinkedOperatorType := fun op => op;
     getLatency := fun _ => 5%Z;
     getStartTime := fun _ => None |}.

(** The scratch column is zero between pivots and the tableau has its
    objective row and its two parameter columns. *)
Definition shaped (s : SimplexSchedulerBase) : Prop :=
  [/\ forall i, impl s i = 0%Z, 0 < nRows s & 1 < nColumns s].

Definition acyclicStart (prob : Problem) (lastOp : Operation) :=
  buildTableau prob (fillConstraintRow prob) lastOp 0%Z.

Definition cyclicStart (prob : CyclicProblem) (lastOp : Operation) :=
  buildTableau prob (cyclicFillConstraintRow prob) lastOp 1%Z.

(** The [parameterT] column of the acyclic tableau is zero. *)
Definition zeroTColumn (s : SimplexSchedulerBase) : Prop :=
  forall r, r < nRows s -> tab s r parameterTColumn = 0%Z.

(** Number of variables: one per operation and one per dependence. *)
Definition numVariables (s : SimplexSchedulerBase) : nat :=
  (nColumns s - firstNonBasicVariableColumn) + (nRows s - firstConstraintRow).

(** The basic and the non-basic variables together are the variable IDs
    [0 .. N+D-1], each once; one non-basic variable per explicit column and
    one basic variable per constraint row. *)
Definition partitioned (s : SimplexSchedulerBase) : Prop :=
  [/\ perm_eq (basicVariables s ++ nonBasicVariables s) (iota 0 (numVariables s)),
      size (nonBasicVariables s) = nColumns s - firstNonBasicVariableColumn
    & size (basicVariables s) = nRows s - firstConstraintRow].

(** The writes [ws] applied to the problem, first to last. *)
Definition applyWrites (prob : Problem) (ws : seq (Operation * Z)) : Problem :=
  foldl (fun p w => setStartTime p w.1 w.2) prob ws.

(** An integer in [{-1, 0, 1}]. *)
Definition unit3 (z : Z) : Prop := (-1 <= z <= 1)%Z.

(** A square matrix with entries in [{-1, 0, 1}] whose columns are either
    node columns, among which every row has at most one [1] and at most one
    [-1], or columns with at most one non-zero entry. *)
Definition network n (A : 'M[Z]_n) (node : pred 'I_n) : Prop :=
  [/\ forall i j, unit3 (A i j),
      forall i j1 j2, node j1 -> node j2 -> A i j1 = 1%Z -> A i j2 = 1%Z -> j1 = j2,
      forall i j1 j2, node j1 -> node j2 -> A i j1 = (-1)%Z -> A i j2 = (-1)%Z -> j1 = j2
    & forall j i1 i2, ~~ node j -> A i1 j <> 0%Z -> A i2 j <> 0%Z -> i1 = i2].

(** Coefficient of variable [v] in row [r] of the full tableau: the stored
    entry for a non-basic variable, the elided zero (objective row) and
    identity (constraint rows) matrix for a basic one. *)
Definition coeffRow (s : SimplexSchedulerBase) (r v : nat) : Z :=
  if v \in nonBasicVariables s
  then tab s r (firstNonBasicVariableColumn + index v (nonBasicVariables s))
  else if (firstConstraintRow <= r)
          && (v == nth 0 (basicVariables s) (r - firstConstraintRow))
       then 1%Z else 0%Z.

(** The same for constraint row [i], counted from 0. *)
Definition coeff (s : SimplexSchedulerBase) (i v : nat) : Z :=
  coeffRow s (firstConstraintRow + i) v.

(** Every square submatrix of the full tableau that takes all constraint
    rows has its determinant in [{-1, 0, 1}]. *)
Definition unimodular (s : SimplexSchedulerBase) : Prop :=
  forall f : 'I_(nRows s - firstConstraintRow) -> nat, injective f ->
    unit3 (\det (\matrix_(i < nRows s - firstConstraintRow,
                           j < nRows s - firstConstraintRow) coeff s i (f j)))%R.

(** The invariant of the solve loop. *)
Definition tableauInv (s : SimplexSchedulerBase) : Prop :=
  [/\ shaped s, partitioned s & unimodular s].

(** The fill strategies differ from the base one only in the two parameter
    columns. *)
Definition baseFill (prob : Problem) (fill : FillRow) : Prop :=
  forall n dep c, firstNonBasicVariableColumn <= c ->
    nth 0%Z (fill (nseq n 0%Z) dep (opColumnsOf (getOperations prob))) c =
    nth 0%Z (fillConstraintRow prob (nseq n 0%Z) dep
               (opColumnsOf (getOperations prob))) c.

(** [F 0 + ... + F (n-1)]. *)
Definition sumZ (n : nat) (F : nat -> Z) : Z := (\sum_(0 <= v < n) F v)%R.

(** The left-hand side of tableau row [r] under the variable values [x],
    and its right-hand side for the value [tau] of the parameter T. *)
Definition rowSum (s : SimplexSchedulerBase) (x : nat -> Z) (r : nat) : Z :=
  sumZ (numVariables s) (fun v => coeffRow s r v * x v)%Z.

Definition rowRhs (s : SimplexSchedulerBase) (tau : Z) (r : nat) : Z :=
  (tab s r parameter1Column + tab s r parameterTColumn * tau)%Z.

(** The variable values [x] solve the constraint rows of [s] for [tau]. *)
Definition satisfies (s : SimplexSchedulerBase) (x : nat -> Z) (tau : Z) : Prop :=
  forall r, firstConstraintRow <= r < nRows s -> rowSum s x r = rowRhs s tau r.

(** The objective row read as an equation: its left-hand side minus its
    right-hand side. *)
Definition objectiveGap (s : SimplexSchedulerBase) (x : nat -> Z) (tau : Z) : Z :=
  (rowSum s x objectiveRow - rowRhs s tau objectiveRow)%Z.

(** The objective row has no negative coefficient. *)
Definition dualFeasible (s : SimplexSchedulerBase) : Prop :=
  forall v, (0 <= coeffRow s objectiveRow v)%Z.

Definition nonNegative (x : nat -> Z) : Prop := forall v, (0 <= x v)%Z.

(** The invariant of the solve loop started in [s0]: the tableau invariant,
    a non-negative objective row, the same solutions as the initial
    tableau and the same objective on them. *)
Definition solveInv (s0 s : SimplexSchedulerBase) : Prop :=
  [/\ tableauInv s, dualFeasible s,
      nRows s = nRows s0 /\ nColumns s = nColumns s0,
      forall x tau, satisfies s x tau <-> satisfies s0 x tau
    & forall x tau, satisfies s x tau ->
        objectiveGap s x tau = objectiveGap s0 x tau].

(** No non-negative solution of the initial tableau exists for a parameter
    below the current [parameterT]. *)
Definition infeasibleBelow (s0 s : SimplexSchedulerBase) : Prop :=
  forall tau x, (parameterT s0 <= tau < parameterT s)%Z ->
    nonNegative x -> ~ satisfies s0 x tau.

(** The operations are distinct and every dependence joins two of them. *)
Definition validProblem (prob : Problem) : Prop :=
  uniq (getOperations prob) /\
  forall dep, dep \in allDependences prob ->
    getSource dep \in getOperations prob /\
    getDestination dep \in getOperations prob.

(** No operation depends on itself. *)
Definition noSelfDependence (prob : Problem) : Prop :=
  forall dep, dep \in allDependences prob -> getSource dep != getDestination dep.

(** The latency the schedulers charge to a dependence: that of the operator
    type of its source. *)
Definition latencyOf (prob : Problem) (dep : Dependence) : Z :=
  getLatency prob (getLinkedOperatorType prob (getSource dep)).

Definition distanceOf (prob : CyclicProblem) (dep : Dependence) : Z :=
  match getDistance prob dep with Some dist => dist | None => 0%Z end.

(** The distance of a dependence as the cyclic scheduler's row holds it. *)
Definition storedDistance (prob : CyclicProblem) (dep : Dependence) : Z :=
  match getDistance prob dep with
  | Some dist => toInt (toUnsigned dist)
  | None => 0%Z
  end.

(** The latencies and the distances of the dependences are values that an
    [int] holds as well as an [unsigned]. *)
Definition latenciesInRange (prob : Problem) : Prop :=
  forall dep, dep \in allDependences prob ->
    (0 <= latencyOf prob dep < 2 ^ 31)%Z.

Definition distancesInRange (prob : CyclicProblem) : Prop :=
  forall dep, dep \in allDependences prob ->
    (0 <= distanceOf prob dep < 2 ^ 31)%Z.

(** [fill] stores [delta dep] in the [parameterT] column and is the base fill
    elsewhere. *)
Definition fillsWith (prob : Problem) (fill : FillRow) (delta : Dependence -> Z) : Prop :=
  forall n dep c,
    nth 0%Z (fill (nseq n 0%Z) dep (opColumnsOf (getOperations prob))) c =
    if c == parameterTColumn then delta dep
    else nth 0%Z (fillConstraintRow prob (nseq n 0%Z) dep
                    (opColumnsOf (getOperations prob))) c.

(** The start times [sigma] meet every dependence for the parameter [tau]. *)
Definition meetsDependences (prob : Problem) (delta : Dependence -> Z)
    (sigma : Operation -> Z) (tau : Z) : Prop :=
  forall dep, dep \in allDependences prob ->
    (latencyOf prob dep <=
     sigma (getDestination dep) - sigma (getSource dep) + delta dep * tau)%Z.

(** The basic solution of a tableau: a basic variable has the value of its
    row, a non-basic variable is 0.  [storeStartTimes] writes it back. *)
Definition solution (s : SimplexSchedulerBase) (v : nat) : Z :=
  if v \in basicVariables s
  then rowValue s (firstConstraintRow + index v (basicVariables s))
  else 0%Z.

(** The slack that the start times [sigma] leave on a dependence. *)
Definition slackOf (prob : Problem) (delta : Dependence -> Z)
    (sigma : Operation -> Z) (tau : Z) (dep : Dependence) : Z :=
  (sigma (getDestination dep) - sigma (getSource dep) + delta dep * tau
   - latencyOf prob dep)%Z.

(** The variable values that belong to the start times [sigma]: variable
    [v < |ops|] is the start time of operation [v], the next [|deps|]
    variables are the slacks of the dependences. *)
Definition valuation (prob : Problem) (delta : Dependence -> Z)
    (sigma : Operation -> Z) (tau : Z) (v : nat) : Z :=
  let ops := getOperations prob in
  let deps := allDependences prob in
  if v < size ops then sigma (nth 0 ops v)
  else if v < size ops + size deps
       then slackOf prob delta sigma tau (nth (Dep 0 0) deps (v - size ops))
       else 0%Z.

(** The start times that the variable values [x] stand for. *)
Definition startTimesOf (prob : Problem) (x : nat -> Z) (op : Operation) : Z :=
  x (index op (getOperations prob)).

(** The least start time of [sigma] on [ops], or 0 if that is less. *)
Definition lowest (ops : seq Operation) (sigma : Operation -> Z) : Z :=
  foldr (fun op acc => Z.min (sigma op) acc) 0%Z ops.

(** The graph of the dependences has no cycle: the operations can be ranked
    so that every dependence leads to a higher rank. *)
Definition acyclic (prob : Problem) : Prop :=
  exists rank : Operation -> nat,
    forall dep, dep \in allDependences prob ->
      rank (getSource dep) < rank (getDestination dep).

(** [pathTo prob op len]: a chain of dependences ends in [op] and the
    latencies along it add up to [len]. *)
Inductive pathTo (prob : Problem) : Operation -> Z -> Prop :=
  | path_start op : op \in getOperations prob -> pathTo prob op 0%Z
  | path_step dep len :
      dep \in allDependences prob -> pathTo prob (getSource dep) len ->
      pathTo prob (getDestination dep) (len + latencyOf prob dep)%Z.

Definition criticalPathLength (prob : Problem) (op : Operation) (L : Z) : Prop :=
  pathTo prob op L /\ forall len, pathTo prob op len -> (len <= L)%Z.

(** The earliest start of [op] when every dependence [dep] into it asks for
    the distance [w dep] from the start [f] of its source. *)
Definition earliestAfter (deps : seq Dependence) (w : Dependence -> Z)
    (f : Operation -> Z) (op : Operation) : Z :=
  foldr (fun dep acc =>
           if getDestination dep == op
           then Z.max (f (getSource dep) + w dep) acc else acc)
        0%Z deps.

(** The start times after [n] rounds of relaxation from 0. *)
Fixpoint relaxed (deps : seq Dependence) (w : Dependence -> Z) (n : nat)
    (op : Operation) : Z :=
  match n with
  | 0 => 0%Z
  | n'.+1 => earliestAfter deps w (relaxed deps w n') op
  end.

(** The as-soon-as-possible schedule of an acyclic problem, [n] rounds. *)
Definition asap (prob : Problem) (n : nat) : Operation -> Z :=
  relaxed (allDependences prob) (latencyOf prob) n.

Definition rankBound (rank : Operation -> nat) (ops : seq Operation) : nat :=
  (foldr maxn 0 [seq rank op | op <- ops]).+1.

(** [walk deps x p y]: the dependences [p], all among [deps], lead from [x]
    to [y], each one starting where the one before it ends. *)
Fixpoint walk (deps : seq Dependence) (x : Operation) (p : seq Dependence)
    (y : Operation) : bool :=
  match p with
  | [::] => x == y
  | d :: p' =>
      [&& d \in deps, getSource d == x & walk deps (getDestination d) p' y]
  end.

(** Where the dependences [p] lead to from [x]. *)
Definition endOf (x : Operation) (p : seq Dependence) : Operation :=
  last x [seq getDestination d | d <- p].

Definition weightSum (w : Dependence -> Z) (p : seq Dependence) : Z :=
  foldr (fun d acc => w d + acc)%Z 0%Z p.

(** A cycle of dependences: at least one, leading back to where they start. *)
Definition dependenceCycle (prob : Problem) (c : seq Dependence) : Prop :=
  c <> [::] /\ exists op, walk (allDependences prob) op c op.

Definition latencySum (prob : Problem) (c : seq Dependence) : Z :=
  weightSum (latencyOf prob) c.

Definition distanceSum (prob : CyclicProblem) (c : seq Dependence) : Z :=
  weightSum (distanceOf prob) c.

(** Every cycle's latencies fit into [T] times its distances. *)
Definition cyclesAllow (prob : CyclicProblem) (T : Z) : Prop :=
  forall c, dependenceCycle prob c ->
    (latencySum prob c <= distanceSum prob c * T)%Z.

(** [II] is the recurrence-constrained minimum initiation interval: the
    largest of 1 and the ceilings of latency sum over distance sum of the
    cycles with a positive distance sum. *)
Definition recurrenceMII (prob : CyclicProblem) (II : Z) : Prop :=
  (forall c, dependenceCycle prob c -> (0 < distanceSum prob c)%Z ->
     (ceilDiv (latencySum prob c) (distanceSum prob c) <= II)%Z) /\
  (II = 1%Z \/
   exists c, [/\ dependenceCycle prob c, (0 < distanceSum prob c)%Z
               & II = ceilDiv (latencySum prob c) (distanceSum prob c)]).

(** Operations A = 0, B = 1, C = 2 with dependences A -> B and B -> C; the
    operator types of A and B have latencies 2 and 3. *)
Definition chainProblem : Problem :=
  {| getOperations := [:: 0; 1; 2];
     getDependences := fun op =>
       if op == 1 then [:: Dep 0 1] else if op == 2 then [:: Dep 1 2] else [::];
     getLinkedOperatorType := fun op => op;
     getLatency := fun t => if t == 0 then 2%Z else 3%Z;
     getStartTime := fun _ => None |}.

(** A single operation that depends on itself with latency 4 and distance 1. *)
Definition selfLoopProblem : CyclicProblem :=
  {| baseProblem :=
       {| getOperations := [:: 0];
          getDependences := fun _ => [:: Dep 0 0];
          getLinkedOperatorType := fun _ => 0;
          getLatency := fun _ => 4%Z;
          getStartTime := fun _ => None |};
     getDistance := fun _ => Some 1%Z;
     getInitiationInterval := None |}.

(** Operations A = 0 and B = 1 with the one dependence A -> B of latency 3
    and distance 1: no cycle bounds the initiation interval. *)
Definition relaxedProblem : CyclicProblem :=
  {| baseProblem :=
       {| getOperations := [:: 0; 1];
          getDependences := fun op => if op == 1 then [:: Dep 0 1] else [::];
          getLinkedOperatorType := fun _ => 0;
          getLatency := fun _ => 3%Z;
          getStartTime := fun _ => None |};
     getDistance := fun _ => Some 1%Z;
     getInitiationInterval := None |}.

(** Operations A = 0 and B = 1 with the one dependence A -> B; the latency
    of A is 3000000000, more than an [int] holds. *)
Definition largeLatencyProblem : Problem :=
  {| getOperations := [:: 0; 1];
     getDependences := fun op => if op == 1 then [:: Dep 0 1] else [::];
     getLinkedOperatorType := fun _ => 0;
     getLatency := fun _ => 3000000000%Z;
     getStartTime := fun _ => None |}.

(** Operations A = 0 and B = 1 of latencies 2 and 3 with the dependences
    A -> B and, with distance 2, B -> A: the one simple cycle has latency sum
    5 and distance sum 2. *)
Definition recurrenceProblem : CyclicProblem :=
  {| baseProblem :=
       {| getOperations := [:: 0; 1];
          getDependences := fun op =>
            if op == 1 then [:: Dep 0 1] else [:: Dep 1 0];
          getLinkedOperatorType := fun op => op;
          getLatency := fun t => if t == 0 then 2%Z else 3%Z;
          getStartTime := fun _ => None |};
     getDistance := fun dep => if getSource dep == 1 then Some 2%Z else None;
     getInitiationInterval := None |}.

(** ** Properties *)

Lemma entry_set_entry t r c v r' c' :
  entry (set_entry t r c v) r' c' =
  if (r' == r) && (c' == c) then v else entry t r' c'.
Proof.
rewrite /entry /set_entry nth_set_nth /=.
case: (r' =P r) => [->|_] //=.
by rewrite nth_set_nth /=.
Qed.

Lemma ltnS_eq (m n : nat) : (m < n.+1) = (m == n) || (m < n).
Proof. by rewrite ltnS leq_eqVlt. Qed.

Lemma for_range_ind (S : Type) (P : nat -> S -> Prop) lo hi body (s : S) :
  lo <= hi -> P lo s ->
  (forall i x, lo <= i < hi -> P i x -> P i.+1 (body i x)) ->
  P hi (for_range lo hi body s).
Proof.
move=> lehi P0 step; rewrite /for_range.
have: lo + (hi - lo) = hi by rewrite subnKC.
have: lo <= lo by [].
move: P0; move: {1 3 4 5}lo s (hi - lo) => k s n.
elim: n k s => [|n IH] k s Pk lek /=; first by rewrite addn0 => <-.
rewrite addnS -addSn => eqhi.
apply: IH => //; last exact: leqW.
apply: step => //; rewrite lek /= -eqhi; exact: leq_addr.
Qed.

Lemma same_frame_refl s : same_frame s s.
Proof. by split. Qed.

Lemma same_frame_trans s1 s2 s3 :
  same_frame s1 s2 -> same_frame s2 s3 -> same_frame s1 s3.
Proof. by case=> e1 e2 e3 e4 e5 [f1 f2 f3 f4 f5]; split; [rewrite f1|rewrite f2|rewrite f3|rewrite f4|rewrite f5]. Qed.

Lemma multiplyRow_spec s row f :
  [/\ same_frame s (multiplyRow s row f),
      forall r c, tab (multiplyRow s row f) r c =
        if (r == row) && (c < nColumns s) then (tab s r c * f)%Z else tab s r c
    & forall i, impl (multiplyRow s row f) i =
        if i == row then (impl s i * f)%Z else impl s i].
Proof.
rewrite /multiplyRow.
set body := (fun col x => _).
have H : [/\ same_frame s (for_range 0 (nColumns s) body s),
     implicitBasicVariableColumnVector (for_range 0 (nColumns s) body s)
       = implicitBasicVariableColumnVector s
   & forall r c, tab (for_range 0 (nColumns s) body s) r c =
        if (r == row) && (c < nColumns s) then (tab s r c * f)%Z else tab s r c].
  apply: (for_range_ind (P := fun col x =>
     [/\ same_frame s x,
         implicitBasicVariableColumnVector x = implicitBasicVariableColumnVector s
       & forall r c, tab x r c =
          if (r == row) && (c < col) then (tab s r c * f)%Z else tab s r c])) => //.
    by split=> // r c; rewrite ltn0 andbF.
  move=> i x _ [fr eqi ex]; split=> //.
  move=> r c; rewrite /body {1}/tab /= entry_set_entry ltnS_eq.
  rewrite -!/(tab x _ _) !ex eqxx ltnn /=.
  by case: (r =P row) => [->|] //=; case: (c =P i) => [->|].
case: H => fr eqi ex; split=> //.
by move=> i; rewrite /impl /= nth_set_nth /= eqi; case: eqP => [->|].
Qed.

Lemma addMultipleOfRow_spec s src f tgt :
  src != tgt ->
  [/\ same_frame s (addMultipleOfRow s src f tgt),
      forall r c, tab (addMultipleOfRow s src f tgt) r c =
        if (r == tgt) && (c < nColumns s)
        then (tab s r c + tab s src c * f)%Z else tab s r c
    & forall i, impl (addMultipleOfRow s src f tgt) i =
        if i == tgt then (impl s i + impl s src * f)%Z else impl s i].
Proof.
move=> neq; rewrite /addMultipleOfRow.
set body := (fun col x => _).
have H : [/\ same_frame s (for_range 0 (nColumns s) body s),
     implicitBasicVariableColumnVector (for_range 0 (nColumns s) body s)
       = implicitBasicVariableColumnVector s
   & forall r c, tab (for_range 0 (nColumns s) body s) r c =
        if (r == tgt) && (c < nColumns s)
        then (tab s r c + tab s src c * f)%Z else tab s r c].
  apply: (for_range_ind (P := fun col x =>
     [/\ same_frame s x,
         implicitBasicVariableColumnVector x = implicitBasicVariableColumnVector s
       & forall r c, tab x r c =
          if (r == tgt) && (c < col)
          then (tab s r c + tab s src c * f)%Z else tab s r c])) => //.
    by split=> // r c; rewrite ltn0 andbF.
  move=> i x _ [fr eqi ex]; split=> //.
  move=> r c; rewrite /body {1}/tab /= entry_set_entry ltnS_eq.
  rewrite -!/(tab x _ _) !ex eqxx ltnn (negbTE neq) /=.
  by case: (r =P tgt) => [->|] //=; case: (c =P i) => [->|].
case: H => fr eqi ex; split=> //.
by move=> i; rewrite /impl /= nth_set_nth /= eqi; case: eqP => [->|].
Qed.

Lemma pivot_spec s pr pc :
  (forall i, impl s i = 0%Z) -> pr < nRows s -> pc < nColumns s ->
  [/\ [/\ parameterT (pivot s pr pc) = parameterT s,
          nRows (pivot s pr pc) = nRows s &
          nColumns (pivot s pr pc) = nColumns s],
      nonBasicVariables (pivot s pr pc) =
        set_nth 0 (nonBasicVariables s) (pc - firstNonBasicVariableColumn)
          (nth 0 (basicVariables s) (pr - firstConstraintRow)),
      basicVariables (pivot s pr pc) =
        set_nth 0 (basicVariables s) (pr - firstConstraintRow)
          (nth 0 (nonBasicVariables s) (pc - firstNonBasicVariableColumn)),
      forall i, impl (pivot s pr pc) i = 0%Z
    & forall r c, r < nRows s -> c < nColumns s ->
        tab (pivot s pr pc) r c =
        if c == pc then (if r == pr then (-1)%Z else tab s r pc)
        else if r == pr then (- tab s pr c)%Z
        else (tab s r c + tab s pr c * tab s r pc)%Z].
Proof.
move=> imp0 ltr ltc; rewrite /pivot.
set s1 := with_implicit s _.
have fr1 : same_frame s s1 by split.
have t1 r c : tab s1 r c = tab s r c by [].
have i1 i : impl s1 i = if i == pr then 1%Z else 0%Z.
  by rewrite /impl /= nth_set_nth /= -/(impl s i) imp0.
case: (multiplyRow_spec s1 pr (-1)%Z); set s2 := multiplyRow _ _ _.
move=> fr2 t2 i2.
have nr2 : nRows s2 = nRows s by case: fr2 => _ _ _ ->.
have nc2 : nColumns s2 = nColumns s by case: fr2 => _ _ _ _ ->.
set body3 := (fun row x => _).
set s3 := for_range 0 (nRows s2) body3 s2.
have [fr3 t3 i3] : [/\ same_frame s2 s3,
    forall r c, tab s3 r c =
      if [&& r < nRows s, r != pr & c < nColumns s]
      then (tab s2 r c + tab s2 pr c * (- tab s2 r pc))%Z else tab s2 r c
  & forall i, impl s3 i =
      if (i < nRows s) && (i != pr)
      then (impl s2 i + impl s2 pr * (- tab s2 i pc))%Z else impl s2 i].
  rewrite /s3 nr2.
  apply: (for_range_ind (P := fun row x =>
    [/\ same_frame s2 x,
      forall r c, tab x r c =
        if [&& r < row, r != pr & c < nColumns s]
        then (tab s2 r c + tab s2 pr c * (- tab s2 r pc))%Z else tab s2 r c
    & forall i, impl x i =
        if (i < row) && (i != pr)
        then (impl s2 i + impl s2 pr * (- tab s2 i pc))%Z else impl s2 i])) => //.
  move=> row x _ [frx tx ix]; rewrite /body3.
  case: (row =P pr) => [eqr|/eqP neqr].
    split=> // [r c|i]; rewrite ?tx ?ix ltnS_eq.
      by case: (r =P row) => [->|] //=; rewrite eqr ltnn eqxx.
    by case: (i =P row) => [->|] //=; rewrite eqr ltnn eqxx.
  have nex : pr != row by rewrite eq_sym.
  have ncx : nColumns x = nColumns s by case: frx => _ _ _ _ ->.
  have ex : tab x row pc = tab s2 row pc by rewrite tx ltnn.
  have ep c : tab x pr c = tab s2 pr c by rewrite tx eqxx andbF.
  have eip : impl x pr = impl s2 pr by rewrite ix eqxx andbF.
  rewrite -/(tab x row pc) ex.
  case: Z.eqb_spec => [z0|_].
    split=> // [r c|i]; rewrite ?tx ?ix ltnS_eq.
      case: (r =P row) => [->|] //=; rewrite neqr ltnn /= z0.
      by case: ifP => // _; lia.
    case: (i =P row) => [->|] //=; rewrite neqr ltnn /= z0; lia.
  case: (addMultipleOfRow_spec x (- tab s2 row pc)%Z nex) => fra ta ia.
  split=> [|r c|i]; first exact: same_frame_trans fra.
    rewrite ta ncx ep !tx ltnS_eq.
    by case: (r =P row) => [->|] //=; rewrite neqr ltnn /=; case: ifP.
  rewrite ia eip !ix ltnS_eq.
  by case: (i =P row) => [->|] //=; rewrite neqr ltnn /=.
have nr3 : nRows s3 = nRows s by case: fr3 => _ _ _ -> _.
set body4 := (fun row x => _).
set s4 := for_range 0 (nRows s3) body4 s3.
have [fr4 t4 i4] : [/\ same_frame s3 s4,
    forall r c, tab s4 r c =
      if (r < nRows s) && (c == pc) then impl s3 r else tab s3 r c
  & forall i, impl s4 i = if i < nRows s then 0%Z else impl s3 i].
  rewrite /s4 nr3.
  apply: (for_range_ind (P := fun row x =>
    [/\ same_frame s3 x,
      forall r c, tab x r c =
        if (r < row) && (c == pc) then impl s3 r else tab s3 r c
    & forall i, impl x i = if i < row then 0%Z else impl s3 i])) => //.
  move=> row x _ [frx tx ix]; rewrite /body4; split=> // [r c|i].
    rewrite {1}/tab /= entry_set_entry -/(tab x r c) -/(impl x row) tx ix ltnn.
    rewrite ltnS_eq.
    by case: (r =P row) => [->|] //=; rewrite ltnn /=.
  rewrite /impl /= nth_set_nth /= -/(impl x i) ix ltnS_eq.
  by case: (i =P row).
have frall : same_frame s s4.
  apply: same_frame_trans fr4; apply: same_frame_trans fr3.
  exact: same_frame_trans fr2.
case: frall => eT enb eb enr enc.
have iE j k i : impl (swapVariables s4 j k) i = impl s4 i by [].
have tE j k r c : tab (swapVariables s4 j k) r c = tab s4 r c by [].
split; first by split.
- by rewrite [LHS]/= enb eb.
- by rewrite [LHS]/= enb eb.
- move=> i; rewrite iE i4; case: ifP => // /negbT; rewrite -leqNgt.
  move=> lei; rewrite i3 ltnNge lei /= i2 i1.
  by have /negbTE-> : i != pr; rewrite // neq_ltn (leq_trans ltr lei) orbT.
move=> r c ltrn ltcn; rewrite tE t4.
clearbody s4; clearbody s3; clearbody s2; clearbody s1; rewrite ltrn /=.
case: (c =P pc) => [_|/eqP nec].
  rewrite i3 ltrn andTb !i2 !i1 eqxx t2 t1.
  have -> : nColumns s1 = nColumns s by case: fr1.
  by case: (r =P pr) => [_|_]; cbn [negb andb orb]; lia.
rewrite t3 ltrn ltcn andbT !t2 !t1 eqxx.
have -> : nColumns s1 = nColumns s by case: fr1.
rewrite ltcn ltc.
by case: (r =P pr) => [->|_]; cbn [negb andb orb]; lia.
Qed.

Lemma assignColumns_rcons ops op :
  assignColumns (rcons ops op) =
  (setOpColumn (opColumnsOf ops) op (firstNonBasicVariableColumn + (assignColumns ops).2),
   rcons (assignColumns ops).1.2 (assignColumns ops).2, (assignColumns ops).2.+1).
Proof.
rewrite /opColumnsOf /assignColumns -cats1 foldl_cat /=.
by case: (foldl _ _ ops) => [[a b] c].
Qed.

Lemma assignColumns_vars ops :
  (assignColumns ops).1.2 = iota 0 (size ops) /\ (assignColumns ops).2 = size ops.
Proof.
elim/last_ind: ops => [|ops op [IH1 IH2]] //.
by rewrite assignColumns_rcons /= IH1 IH2 size_rcons -cats1 -addn1 iotaD add0n.
Qed.

Lemma opColumnsOf_rcons ops op o :
  opColumnsOf (rcons ops op) o =
  if o == op then firstNonBasicVariableColumn + size ops else opColumnsOf ops o.
Proof.
rewrite {1}/opColumnsOf assignColumns_rcons /= /setOpColumn.
by case: (assignColumns_vars ops) => _ ->.
Qed.

Lemma opColumnsOf_notin ops o : o \notin ops -> opColumnsOf ops o = 0.
Proof.
elim/last_ind: ops => [|ops op IH] //.
rewrite mem_rcons inE negb_or opColumnsOf_rcons => /andP[/negbTE-> nin].
exact: IH.
Qed.

Lemma opColumnsOf_range ops o :
  opColumnsOf ops o = 0 \/
  firstNonBasicVariableColumn <= opColumnsOf ops o < firstNonBasicVariableColumn + size ops.
Proof.
elim/last_ind: ops => [|ops op IH]; first by left.
rewrite opColumnsOf_rcons size_rcons; case: eqP => _.
  by right; rewrite leq_addr /= addnS ltnS leqnn.
case: IH => [->|/andP[lo hi]]; [by left|right].
by rewrite lo /= addnS ltnS ltnW.
Qed.

Lemma opColumnsOf_nth ops i :
  uniq ops -> i < size ops ->
  opColumnsOf ops (nth 0 ops i) = firstNonBasicVariableColumn + i.
Proof.
elim/last_ind: ops i => [|ops op IH] i //.
rewrite rcons_uniq size_rcons ltnS => /andP[nin un] lei.
rewrite opColumnsOf_rcons nth_rcons.
move: lei; rewrite leq_eqVlt => /orP[/eqP->|lti]; first by rewrite ltnn !eqxx.
rewrite lti; case: eqP => [eqo|_]; last exact: IH.
by move: nin; rewrite -eqo mem_nth.
Qed.

Lemma addConstraintRows_eq prob fill opCols nCols tb im bs vn :
  addConstraintRows prob fill opCols nCols (tb, im, bs, vn) =
  (tb ++ [seq fill (nseq nCols 0%Z) dep opCols | dep <- allDependences prob],
   im ++ nseq (size (allDependences prob)) 0%Z,
   bs ++ iota vn (size (allDependences prob)),
   vn + size (allDependences prob)).
Proof.
rewrite /addConstraintRows /allDependences.
elim: (getOperations prob) tb im bs vn => [|op ops IH] tb im bs vn /=.
  by rewrite !cats0 addn0.
have inner ds t i b v :
  foldl (fun acc dep => let '(tab, implicit, basic, varNum) := acc in
           (rcons tab (fill (nseq nCols 0%Z) dep opCols), rcons implicit 0%Z,
            rcons basic varNum, varNum.+1)) (t, i, b, v) ds =
  (t ++ [seq fill (nseq nCols 0%Z) dep opCols | dep <- ds],
   i ++ nseq (size ds) 0%Z, b ++ iota v (size ds), v + size ds).
  elim: ds t i b v => [|d ds IHd] t i b v /=; first by rewrite !cats0 addn0.
  by rewrite IHd -!cats1 -!catA /= addnS addSn.
rewrite inner IH map_cat size_cat !catA nseqD iotaD addnA.
by rewrite -!catA.
Qed.

Lemma buildTableau_eq prob fill lastOp T :
  buildTableau prob fill lastOp T =
  Scheduler T
    (objectiveRowOf prob lastOp ::
     [seq fill (nseq (2 + size (getOperations prob)) 0%Z) dep
            (opColumnsOf (getOperations prob)) | dep <- allDependences prob])
    (nseq (size (allDependences prob)).+1 0%Z)
    (iota 0 (size (getOperations prob)))
    (iota (size (getOperations prob)) (size (allDependences prob)))
    (size (allDependences prob)).+1
    (2 + size (getOperations prob)).
Proof.
rewrite /buildTableau.
case: (assignColumns_vars (getOperations prob)).
rewrite /objectiveRowOf /opColumnsOf.
case: (assignColumns _) => [[oc nb] vn] /= -> ->.
by rewrite addConstraintRows_eq /= size_map size_iota.
Qed.

Lemma findPivotRowFrom_spec s row n :
  match findPivotRowFrom s row n with
  | Some r => [/\ row <= r < row + n, (rowValue s r < 0)%Z
                & forall r', row <= r' < r -> (0 <= rowValue s r')%Z]
  | None => forall r', row <= r' < row + n -> (0 <= rowValue s r')%Z
  end.
Proof.
elim: n row => [|n IH] row /=.
  by move=> r'; rewrite addn0 => /andP[lo hi]; move: (leq_ltn_trans lo hi); rewrite ltnn.
case: Z.ltb_spec => [neg|nonneg].
  split=> //; first by rewrite leqnn /= addnS ltnS leq_addr.
  by move=> r' /andP[lo hi]; move: (leq_ltn_trans lo hi); rewrite ltnn.
move: (IH row.+1); case: (findPivotRowFrom s row.+1 n) => [r|].
  case=> /andP[lo hi] neg before; split=> //.
    by rewrite (ltnW lo) /= addnS -addSn.
  move=> r' /andP[]; rewrite leq_eqVlt => /orP[/eqP<- //|lo'] hi'.
  by apply: before; rewrite lo'.
move=> all r' /andP[]; rewrite leq_eqVlt => /orP[/eqP<- //|lo'] hi'.
by apply: all; rewrite lo' /= addSn -addnS.
Qed.

Lemma firstViolatedRow_inj s r1 r2 :
  firstViolatedRow s r1 -> firstViolatedRow s r2 -> r1 = r2.
Proof.
move=> [/andP[lo1 hi1] neg1 b1] [/andP[lo2 hi2] neg2 b2].
case: (ltngtP r1 r2) => // lt.
  by have := b2 r1; rewrite lo1 lt => /(_ isT); lia.
by have := b1 r2; rewrite lo2 lt => /(_ isT); lia.
Qed.

Lemma findPivotRow_range s r :
  (firstConstraintRow <= r < firstConstraintRow + (nRows s - firstConstraintRow))
  = (firstConstraintRow <= r < nRows s).
Proof.
rewrite /firstConstraintRow; case: (nRows s) => [|m]; last by rewrite subn1 add1n.
by rewrite ltn0 andbF /= addn0; case: r.
Qed.

Lemma findPivotRow_some s r : findPivotRow s = Some r -> firstViolatedRow s r.
Proof.
move: (findPivotRowFrom_spec s firstConstraintRow (nRows s - firstConstraintRow)).
rewrite /findPivotRow; case: (findPivotRowFrom _ _ _) => [r0|] //.
by rewrite findPivotRow_range => -[inr neg before] [<-]; split.
Qed.

Lemma findPivotRow_none s : findPivotRow s = None -> noViolatedRow s.
Proof.
move: (findPivotRowFrom_spec s firstConstraintRow (nRows s - firstConstraintRow)).
rewrite /findPivotRow; case: (findPivotRowFrom _ _ _) => [r0|] // all _ r' inr.
by apply: all; rewrite findPivotRow_range.
Qed.


Lemma for_range_max (S : Type) lo hi body (s : S) :
  for_range lo hi body s = for_range lo (maxn lo hi) body s.
Proof.
rewrite /for_range /maxn; case: (ltnP lo hi) => // lehi.
by move: (lehi); rewrite -subn_eq0 => /eqP->; rewrite subnn.
Qed.

Lemma in_range_max lo hi c : (lo <= c < maxn lo hi) = (lo <= c < hi).
Proof.
rewrite /maxn; case: (ltnP lo hi) => // lehi.
by case: (leqP lo c) => //= lec; rewrite ltnNge (leq_trans lehi lec).
Qed.

Lemma findPivotColumn_inv s pivotRow :
  pivotColumnInv s pivotRow (maxn firstNonBasicVariableColumn (nColumns s))
    (for_range firstNonBasicVariableColumn (nColumns s)
       (pivotColumnStep s pivotRow) (None, None)).
Proof.
rewrite for_range_max.
apply: (for_range_ind (P := pivotColumnInv s pivotRow)); first exact: leq_maxl.
  by move=> c' /andP[lo hi]; move: (leq_ltn_trans lo hi); rewrite ltnn.
move=> col acc /andP[locol _]; rewrite /pivotColumnStep -/(tab s pivotRow col).
rewrite -/(tab s objectiveRow col).
case: acc => [[q|] [c|]] //=.
- case=> eq inr neg mx lft.
  case: Z.ltb_spec => [negc|nonneg]; last first.
    split=> //; first by case/andP: inr => -> /= /ltnW.
    move=> c' /andP[lo]; rewrite ltnS_eq => /orP[/eqP->|hi]; first by lia.
    by apply: mx; rewrite lo.
  case: Z.ltb_spec => [better|worse].
    split=> //; first by rewrite locol /=.
      move=> c' /andP[lo]; rewrite ltnS_eq => /orP[/eqP-> _|hi ng]; first by lia.
      by have := mx c'; rewrite lo hi => /(_ isT ng); lia.
    by move=> c' inr' ng; have := mx c' inr' ng; lia.
  split=> //; first by case/andP: inr => -> /= /ltnW.
  move=> c' /andP[lo]; rewrite ltnS_eq => /orP[/eqP-> _|hi ng]; first by lia.
  by apply: mx => //; rewrite lo.
- move=> none; case: Z.ltb_spec => [negc|nonneg].
    split=> //; first by rewrite locol /=.
      move=> c' /andP[lo]; rewrite ltnS_eq => /orP[/eqP-> _|hi ng]; first by lia.
      by have := none c'; rewrite lo hi => /(_ isT); lia.
    by move=> c' inr' ng; have := none c' inr'; lia.
  move=> c' /andP[lo]; rewrite ltnS_eq => /orP[/eqP-> //|hi].
  by apply: none; rewrite lo.
Qed.

Lemma bestPivotColumn_inj s pivotRow c1 c2 :
  bestPivotColumn s pivotRow c1 -> bestPivotColumn s pivotRow c2 -> c1 = c2.
Proof.
move=> [/andP[lo1 hi1] neg1 mx1 lft1] [/andP[lo2 hi2] neg2 mx2 lft2].
case: (ltngtP c1 c2) => // lt.
  have := lft2 c1; rewrite lo1 lt => /(_ isT neg1).
  by have := mx1 c2; rewrite lo2 hi2 => /(_ isT neg2); lia.
have := lft1 c2; rewrite lo2 lt => /(_ isT neg2).
by have := mx2 c1; rewrite lo1 hi1 => /(_ isT neg1); lia.
Qed.

Lemma findPivotColumn_some s pivotRow c :
  findPivotColumn s pivotRow = Some c -> bestPivotColumn s pivotRow c.
Proof.
move: (findPivotColumn_inv s pivotRow); rewrite /findPivotColumn.
case: (for_range _ _ _ _) => [[q|] [c0|]] //=.
case=> eq; rewrite in_range_max => inr neg mx lft [<-].
split=> // [c' inr' ng|c' inr' ng].
  by have := mx c'; rewrite in_range_max => /(_ inr' ng); lia.
by have := lft c' inr' ng; lia.
Qed.

Lemma findPivotColumn_none s pivotRow :
  findPivotColumn s pivotRow = None -> noPivotColumn s pivotRow.
Proof.
move: (findPivotColumn_inv s pivotRow); rewrite /findPivotColumn.
case: (for_range _ _ _ _) => [[q|] [c0|]] //= none _ c' inr.
by apply: none; rewrite in_range_max.
Qed.

(** C8: [findPivotColumn] returns, among the non-basic-variable columns with
    a negative entry in the pivot row, the one maximising the negated
    objective entry, the leftmost on a tie; it returns none exactly when the
    pivot row has no negative entry in those columns. *)
Theorem findPivotColumn_best (s : SimplexSchedulerBase) (pivotRow : nat) :
  (forall c, findPivotColumn s pivotRow = Some c <-> bestPivotColumn s pivotRow c) /\
  (findPivotColumn s pivotRow = None <-> noPivotColumn s pivotRow).
Proof.
case fpc: (findPivotColumn s pivotRow) => [c0|].
  have best := findPivotColumn_some fpc; split.
    move=> c; split=> [[<-] //|best']; congr Some.
    exact: bestPivotColumn_inj best best'.
  by split=> // nopc; case: best => inr neg _ _; have := nopc c0 inr; lia.
have nopc := findPivotColumn_none fpc; split=> //.
by move=> c; split=> // -[inr neg _ _]; have := nopc c inr; lia.
Qed.

Lemma solveReaches_trans s0 s1 s2 :
  solveReaches s0 s1 -> solveReaches s1 s2 -> solveReaches s0 s2.
Proof. by move=> r01; elim=> // s s' _ IH st; apply: reaches_next IH st. Qed.

Lemma solveReaches_head s0 s1 s :
  solveStep s0 = Continue s1 -> solveReaches s1 s -> solveReaches s0 s.
Proof.
move=> st; apply: solveReaches_trans.
exact: reaches_next (reaches_start s0) st.
Qed.

Lemma solveTableau_reaches fuel s0 r s :
  solveTableau fuel s0 = Some (r, s) -> solveReaches s0 s /\ solveStep s = Return r.
Proof.
elim: fuel s0 => [|fuel IH] s0 //=.
case st: (solveStep s0) => [s1|r1].
  by move/IH=> [re ret]; split=> //; apply: solveReaches_head re.
by case=> <- <-; split=> //; apply: reaches_start.
Qed.

Lemma solveTableau_more fuel s0 res :
  solveTableau fuel s0 = Some res -> solveTableau fuel.+1 s0 = Some res.
Proof.
elim: fuel s0 => [|fuel IH] s0 //.
by rewrite [solveTableau fuel.+2 _]/= [solveTableau fuel.+1 _]/=; case: (solveStep s0).
Qed.

Lemma iterSteps_next n s0 s s' :
  iterSteps n s0 = Some s -> solveStep s = Continue s' ->
  iterSteps n.+1 s0 = Some s'.
Proof.
elim: n s0 => [|n IH] s0; first by case=> -> /= ->.
by rewrite [iterSteps n.+2 _]/= [iterSteps n.+1 _]/=; case: (solveStep s0) => // s1; apply: IH.
Qed.

Lemma reaches_iterSteps s0 s :
  solveReaches s0 s -> exists n, iterSteps n s0 = Some s.
Proof.
elim=> [|s1 s2 _ [n it] st]; first by exists 0.
by exists n.+1; apply: iterSteps_next it st.
Qed.

Lemma iterSteps_solveTableau n s0 s r :
  iterSteps n s0 = Some s -> solveStep s = Return r ->
  solveTableau n.+1 s0 = Some (r, s).
Proof.
elim: n s0 => [|n IH] s0; first by case=> -> /= ->.
rewrite [iterSteps n.+1 _]/= [solveTableau n.+2 _]/=.
by case: (solveStep s0) => // s1; apply: IH.
Qed.

Lemma reaches_solveTableau s0 s r :
  solveReaches s0 s -> solveStep s = Return r ->
  exists fuel, solveTableau fuel s0 = Some (r, s).
Proof.
move=> /reaches_iterSteps[n it] ret; exists n.+1.
exact: iterSteps_solveTableau it ret.
Qed.

Lemma solveStepP s :
  match solveStep s with
  | Return success => noViolatedRow s
  | Return failure => exists row, infeasibleRow s row
  | Continue s' =>
      exists2 pivotRow, firstViolatedRow s pivotRow &
        (exists2 pivotCol, bestPivotColumn s pivotRow pivotCol
                         & s' = pivot s pivotRow pivotCol) \/
        [/\ noPivotColumn s pivotRow,
            (0 < tab s pivotRow parameterTColumn)%Z
          & s' = with_parameterT s
                   (grownParameterT (tab s pivotRow parameter1Column)
                                    (tab s pivotRow parameterTColumn))]
  end.
Proof.
rewrite /solveStep.
case fpr: (findPivotRow s) => [pr|]; last exact: findPivotRow_none.
have fv := findPivotRow_some fpr.
case fpc: (findPivotColumn s pr) => [pc|].
  by exists pr => //; left; exists pc => //; apply: findPivotColumn_some.
have nopc := findPivotColumn_none fpc.
rewrite -/(tab s pr parameterTColumn) -/(tab s pr parameter1Column).
case: Z.ltb_spec => [pos|npos]; first by exists pr => //; right; split.
by exists pr; split.
Qed.

Lemma grownParameterT_ceil e1 eT : (e1 < 0)%Z -> (0 < eT)%Z ->
  [/\ grownParameterT e1 eT = ceilDiv (- e1) eT,
      (eT * (grownParameterT e1 eT - 1) < - e1 <= eT * grownParameterT e1 eT)%Z,
      (0 <= e1 + grownParameterT e1 eT * eT)%Z
    & forall T', (0 <= e1 + T' * eT)%Z -> (grownParameterT e1 eT <= T')%Z].
Proof.
move=> neg pos; rewrite /grownParameterT /ceilDiv.
rewrite Z.quot_div_nonneg; try lia.
rewrite Z.opp_involutive.
have eq2 := Z.div_mod e1 eT ltac:(lia).
have bd2 := Z.mod_pos_bound e1 eT pos.
have -> : ((- e1 - 1) / eT = - (e1 / eT) - 1)%Z.
  symmetry; apply: (Z.div_unique _ _ _ (eT - e1 mod eT - 1)%Z); first by lia.
  by move: eq2; set q := (e1 / eT)%Z; set m := (e1 mod eT)%Z => eq2; nia.
move: eq2 bd2; set q := (e1 / eT)%Z; set m := (e1 mod eT)%Z => eq2 bd2.
split; [lia|nia|nia|move=> T' ge].
case: (Z.le_gt_cases (- q - 1 + 1) T') => // lt.
have H : (eT * (T' + q + 1) <= 0)%Z by apply: Z.mul_nonneg_nonpos; lia.
lia.
Qed.



Lemma firstViolatedRow_find s row :
  firstViolatedRow s row -> findPivotRow s = Some row.
Proof.
move=> fv; case fpr: (findPivotRow s) => [r0|].
  by congr Some; apply: firstViolatedRow_inj (findPivotRow_some fpr) fv.
by case: fv => inr neg _; have := findPivotRow_none fpr inr; lia.
Qed.

Lemma noPivotColumn_find s row :
  noPivotColumn s row -> findPivotColumn s row = None.
Proof.
move=> nopc; case fpc: (findPivotColumn s row) => [c0|] //.
by case: (findPivotColumn_some fpc) => inr neg _ _; have := nopc c0 inr; lia.
Qed.

Lemma infeasibleRow_step s row : infeasibleRow s row -> solveStep s = Return failure.
Proof.
case=> fv nopc npos.
rewrite /solveStep (firstViolatedRow_find fv) (noPivotColumn_find nopc).
by rewrite -/(tab s row parameterTColumn); case: Z.ltb_spec => //; lia.
Qed.

(** C6: [solveTableau] returns failure exactly when its loop reaches a state
    whose selected pivot row (the first violated row) has no negative entry
    in a non-basic-variable column and a non-positive entry in the
    [parameterT] column; the two operations that depend on each other with
    latency 5 are reported infeasible by a failure result. *)
Theorem solveTableau_failure_iff :
  (forall s0 s,
     (exists fuel, solveTableau fuel s0 = Some (failure, s)) <->
     (solveReaches s0 s /\ exists row, infeasibleRow s row)) /\
  scheduleSimplex 2 twoCycleProblem 1 = Some (failure, twoCycleProblem).
Proof.
split; last by vm_compute.
move=> s0 s; split=> [[fuel run]|[re [row inf]]].
  case: (solveTableau_reaches run) => re ret; split=> //.
  by move: (solveStepP s); rewrite ret.
exact: reaches_solveTableau re (infeasibleRow_step inf).
Qed.

Lemma pivot_frame s pr pc :
  [/\ parameterT (pivot s pr pc) = parameterT s,
      nRows (pivot s pr pc) = nRows s & nColumns (pivot s pr pc) = nColumns s].
Proof.
rewrite /pivot.
set s1 := with_implicit s _.
have fr1 : same_frame s s1 by split.
case: (multiplyRow_spec s1 pr (-1)%Z); set s2 := multiplyRow _ _ _ => fr2 _ _.
set body3 := (fun row x => _).
have fr3 : same_frame s2 (for_range 0 (nRows s2) body3 s2).
  apply: (for_range_ind (P := fun _ x => same_frame s2 x)) => //.
  move=> row x _ frx; rewrite /body3; case: eqP => // /eqP ne.
  case: Z.eqb_spec => // _.
  have ne' : pr != row by rewrite eq_sym.
  by case: (addMultipleOfRow_spec x (- entry (tableau x) row pc)%Z ne') => fra _ _;
     apply: same_frame_trans fra.
set s3 := for_range _ _ body3 s2 in fr3 *.
set body4 := (fun row x => _).
have fr4 : same_frame s3 (for_range 0 (nRows s3) body4 s3).
  by apply: (for_range_ind (P := fun _ x => same_frame s3 x)).
have [eT _ _ enr enc] : same_frame s (for_range 0 (nRows s3) body4 s3).
  apply: same_frame_trans fr4; apply: same_frame_trans fr3.
  exact: same_frame_trans fr2.
by split.
Qed.

Lemma nth_set_nth_if (T : Type) (x0 : T) s n y i :
  nth x0 (set_nth x0 s n y) i = if i == n then y else nth x0 s i.
Proof. by rewrite nth_set_nth. Qed.

Lemma nth_fillConstraintRow prob n dep oc c :
  nth 0%Z (fillConstraintRow prob (nseq n 0%Z) dep oc) c =
  if c == oc (getDestination dep) then (-1)%Z
  else if c == oc (getSource dep) then 1%Z
  else if c == parameter1Column
       then toInt (toUnsigned
              (- toUnsigned (getLatency prob
                               (getLinkedOperatorType prob (getSource dep)))))
  else 0%Z.
Proof.
by rewrite /fillConstraintRow !nth_set_nth_if nth_nseq if_same.
Qed.

Lemma nth_cyclicFillConstraintRow (prob : CyclicProblem) n dep oc c :
  nth 0%Z (cyclicFillConstraintRow prob (nseq n 0%Z) dep oc) c =
  match getDistance prob dep with
  | Some dist => if c == parameterTColumn then toInt (toUnsigned dist)
                 else nth 0%Z (fillConstraintRow prob (nseq n 0%Z) dep oc) c
  | None => nth 0%Z (fillConstraintRow prob (nseq n 0%Z) dep oc) c
  end.
Proof.
rewrite /cyclicFillConstraintRow; case: (getDistance prob dep) => // d.
by rewrite nth_set_nth_if.
Qed.

Lemma tab_build_objective prob fill lastOp T c :
  tab (buildTableau prob fill lastOp T) objectiveRow c =
  if c == opColumnsOf (getOperations prob) lastOp then 1%Z else 0%Z.
Proof.
rewrite buildTableau_eq /tab /entry.
change (nth 0%Z (objectiveRowOf prob lastOp) c = if c == opColumnsOf (getOperations prob) lastOp then 1%Z else 0%Z).
by rewrite /objectiveRowOf nth_set_nth_if nth_nseq if_same.
Qed.

Lemma tab_build_row prob fill lastOp T k c :
  k < size (allDependences prob) ->
  tab (buildTableau prob fill lastOp T) k.+1 c =
  nth 0%Z (fill (nseq (2 + size (getOperations prob)) 0%Z)
             (nth (Dep 0 0) (allDependences prob) k)
             (opColumnsOf (getOperations prob))) c.
Proof.
by move=> ltk; rewrite buildTableau_eq /tab /entry /= (nth_map (Dep 0 0)).
Qed.

Lemma build_shaped prob fill lastOp T : shaped (buildTableau prob fill lastOp T).
Proof.
rewrite buildTableau_eq; split=> // i.
rewrite /impl.
change (nth 0%Z (nseq (size (allDependences prob)).+1 0%Z) i = 0%Z).
by rewrite nth_nseq if_same.
Qed.

Lemma opColumnsOf_neq1 ops o : (parameterTColumn == opColumnsOf ops o) = false.
Proof.
by case: (opColumnsOf_range ops o) => [->|/andP[]] //; case: (opColumnsOf _ _) => [|[|]].
Qed.

Lemma acyclicStart_zeroTColumn prob lastOp : zeroTColumn (acyclicStart prob lastOp).
Proof.
move=> [|k]; first by rewrite /acyclicStart tab_build_objective opColumnsOf_neq1.
rewrite /acyclicStart {1}buildTableau_eq [nRows _]/= ltnS => ltk.
by rewrite tab_build_row // nth_fillConstraintRow !opColumnsOf_neq1.
Qed.

Lemma step_shaped s s' : solveStep s = Continue s' -> shaped s -> shaped s'.
Proof.
move=> st [imp0 nr nc]; move: (solveStepP s); rewrite st.
case=> pr [/andP[_ ltr] _ _] [[pc [/andP[_ ltc] _ _ _] ->]|[_ _ ->]] //.
case: (pivot_spec imp0 ltr ltc) => [[_ enr enc] _ _ imp0' _].
by split=> //; rewrite ?enr ?enc.
Qed.

Lemma step_zeroTColumn s s' :
  solveStep s = Continue s' -> shaped s -> zeroTColumn s ->
  zeroTColumn s' /\ parameterT s' = parameterT s.
Proof.
move=> st [imp0 nr nc] zt; move: (solveStepP s); rewrite st.
case=> pr [/andP[_ ltr] _ _] [[pc [/andP[lo ltc] _ _ _] ->]|[_ pos _]]; last first.
  by move: pos; rewrite zt //; lia.
case: (pivot_spec imp0 ltr ltc) => [[eT enr enc] _ _ _ tabs]; split=> // r.
rewrite enr => ltrn; rewrite tabs //.
have -> : (parameterTColumn == pc) = false.
  by apply/negbTE; rewrite neq_ltn; apply/orP; left.
by rewrite !zt //; case: ifP => _; lia.
Qed.

Lemma acyclic_reaches_inv prob lastOp s :
  solveReaches (acyclicStart prob lastOp) s ->
  [/\ shaped s, zeroTColumn s & parameterT s = 0%Z].
Proof.
elim=> [|s1 s2 _ [sh zt eT] st].
  split; [exact: build_shaped|exact: acyclicStart_zeroTColumn|].
  by rewrite /acyclicStart buildTableau_eq.
case: (step_zeroTColumn st sh zt) => zt' eT'.
by split=> //; [apply: step_shaped st sh|rewrite eT'].
Qed.

Lemma step_parameterT_le s s' :
  solveStep s = Continue s' -> (0 <= parameterT s)%Z ->
  (parameterT s <= parameterT s')%Z.
Proof.
move=> st Tge0; move: (solveStepP s); rewrite st.
case=> pr [_ viol _] [[pc _ ->]|[_ pos ->]].
  by case: (pivot_frame s pr pc) => ->; lia.
rewrite [parameterT (with_parameterT _ _)]/=.
move: viol; rewrite /rowValue -/(tab s pr parameter1Column).
rewrite -/(tab s pr parameterTColumn) => viol.
have neg : (tab s pr parameter1Column < 0)%Z by nia.
case: (grownParameterT_ceil neg pos) => _ _ ge0 _.
case: (Z.le_gt_cases (parameterT s)
         (grownParameterT (tab s pr parameter1Column) (tab s pr parameterTColumn)))
  => // lt.
have : (0 < (parameterT s - grownParameterT (tab s pr parameter1Column)
                 (tab s pr parameterTColumn)) * tab s pr parameterTColumn)%Z.
  by apply: Z.mul_pos_pos; lia.
lia.
Qed.

Lemma reaches_parameterT_ge s0 s :
  solveReaches s0 s -> (0 <= parameterT s0)%Z -> (parameterT s0 <= parameterT s)%Z.
Proof.
move=> re T0; elim: re => [|s1 s2 _ IH st]; first by lia.
by have := step_parameterT_le st; lia.
Qed.


Lemma set_nth_split (T : Type) (x0 : T) (s : seq T) i y :
  i < size s -> set_nth x0 s i y = take i s ++ y :: drop i.+1 s.
Proof. by move=> lti; rewrite set_nthE lti. Qed.

Lemma nth_split (T : Type) (x0 : T) (s : seq T) i :
  i < size s -> s = take i s ++ nth x0 s i :: drop i.+1 s.
Proof. by move=> lti; rewrite -drop_nth // cat_take_drop. Qed.

Lemma perm_swap_nth (b n : seq nat) i j :
  i < size b -> j < size n ->
  perm_eq (set_nth 0 b i (nth 0 n j) ++ set_nth 0 n j (nth 0 b i)) (b ++ n).
Proof.
move=> lti ltj; rewrite !set_nth_split //.
rewrite [X in perm_eq _ (X ++ _)](nth_split 0 lti).
rewrite [X in perm_eq _ (_ ++ X)](nth_split 0 ltj).
apply/permP => a; rewrite !count_cat /= ?count_cat /=.
move: (count a (take i b)) (count a (drop i.+1 b)) (count a (take j n))
      (count a (drop j.+1 n)) (a (nth 0 n j) : nat) (a (nth 0 b i) : nat).
by move=> c1 c2 c3 c4 c5 c6; apply/eqP; rewrite -!plusE; apply/eqP; lia.
Qed.

Lemma build_partitioned prob fill lastOp T :
  partitioned (buildTableau prob fill lastOp T).
Proof.
rewrite buildTableau_eq /partitioned /numVariables /=.
rewrite /firstNonBasicVariableColumn /firstConstraintRow.
rewrite !size_iota subn1 /= addKn; split=> //.
by rewrite perm_catC -iotaD.
Qed.

Lemma step_partitioned s s' :
  solveStep s = Continue s' -> shaped s -> partitioned s -> partitioned s'.
Proof.
move=> st [imp0 nr nc] [pe snb sb]; move: (solveStepP s); rewrite st.
case=> pr [/andP[lor ltr] _ _] [[pc [/andP[loc ltc] _ _ _] ->]|[_ _ ->]] //.
case: (pivot_spec imp0 ltr ltc) => [[_ enr enc] enb eb _ _].
have lti : pr - firstConstraintRow < size (basicVariables s).
  by rewrite sb; apply: ltn_sub2r => //; apply: leq_ltn_trans lor ltr.
have ltj : pc - firstNonBasicVariableColumn < size (nonBasicVariables s).
  by rewrite snb; apply: ltn_sub2r => //; apply: leq_ltn_trans loc ltc.
split; rewrite /numVariables ?enr ?enc ?enb ?eb ?size_set_nth.
- by apply: perm_trans pe; apply: perm_swap_nth.
- by rewrite (maxn_idPr _) // snb.
by rewrite (maxn_idPr _) // sb.
Qed.

Lemma reaches_shaped_partitioned s0 s :
  solveReaches s0 s -> shaped s0 -> partitioned s0 -> shaped s /\ partitioned s.
Proof.
move=> re sh0 pa0; elim: re => [|s1 s2 _ [sh pa] st] //.
by split; [apply: step_shaped st sh|apply: step_partitioned st sh pa].
Qed.

Lemma foldl_rcons_if (A B : Type) (p : A -> bool) (f : A -> B) acc l :
  foldl (fun ws i => if p i then rcons ws (f i) else ws) acc l =
  acc ++ [seq f i | i <- l & p i].
Proof.
elim: l acc => [|x l IH] acc /=; first by rewrite cats0.
by rewrite IH; case: (p x) => //=; rewrite -cats1 -catA.
Qed.

Lemma map_filter_nth (A B : Type) (x0 : A) (l : seq A) (p : pred A) (g : A -> B) :
  [seq g (nth x0 l i) | i <- iota 0 (size l) & p (nth x0 l i)] =
  [seq g x | x <- l & p x].
Proof. by rewrite -[in RHS](mkseq_nth x0 l) /mkseq filter_map -map_comp. Qed.

Lemma startTimeWrites_ops ops s :
  [seq w.1 | w <- startTimeWrites ops s] =
  [seq nth 0 ops v | v <- basicVariables s ++ nonBasicVariables s & v < size ops].
Proof.
rewrite /startTimeWrites /for_range !subn0 filter_cat !map_cat.
rewrite (foldl_rcons_if (fun i => nth 0 (basicVariables s) i < size ops)
          (fun i => (nth 0 ops (nth 0 (basicVariables s) i),
                     rowValue s (firstConstraintRow + i)))).
rewrite (foldl_rcons_if (fun i => nth 0 (nonBasicVariables s) i < size ops)
          (fun i => (nth 0 ops (nth 0 (nonBasicVariables s) i), 0%Z))).
rewrite !cat0s -!map_comp; congr (_ ++ _).
  by rewrite -(map_filter_nth 0 (basicVariables s) (fun v => v < size ops)).
by rewrite -(map_filter_nth 0 (nonBasicVariables s) (fun v => v < size ops)).
Qed.

Lemma partitioned_writes ops s :
  partitioned s -> size ops = nColumns s - firstNonBasicVariableColumn ->
  perm_eq [seq w.1 | w <- startTimeWrites ops s] ops.
Proof.
move=> [pe snb sb] szo; rewrite startTimeWrites_ops.
have := perm_map (nth 0 ops) (perm_filter (fun v => v < size ops) pe).
move/perm_trans; apply.
rewrite /numVariables -szo iotaD filter_cat add0n.
have -> : [seq v <- iota 0 (size ops) | v < size ops] = iota 0 (size ops).
  by apply/all_filterP/allP => v; rewrite mem_iota add0n.
have -> : [seq v <- iota (size ops) (nRows s - firstConstraintRow) | v < size ops] = [::].
  apply/eqP; rewrite -(negbK (_ == _)) -has_filter; apply/hasPn => v.
  by rewrite mem_iota => /andP[le _]; rewrite ltnNge le.
by rewrite cats0 -/(mkseq _ _) mkseq_nth.
Qed.

Lemma step_frame s s' :
  solveStep s = Continue s' -> nRows s' = nRows s /\ nColumns s' = nColumns s.
Proof.
move=> st; move: (solveStepP s); rewrite st.
case=> pr _ [[pc _ ->]|[_ _ ->]] //.
by case: (pivot_frame s pr pc).
Qed.

Lemma reaches_frame s0 s :
  solveReaches s0 s -> nRows s = nRows s0 /\ nColumns s = nColumns s0.
Proof.
elim=> [|s1 s2 _ [enr enc] /step_frame[-> ->]] //.
Qed.

Lemma solved_writes prob fill lastOp T fuel r s :
  solveTableau fuel (buildTableau prob fill lastOp T) = Some (r, s) ->
  perm_eq [seq w.1 | w <- startTimeWrites (getOperations prob) s] (getOperations prob).
Proof.
move=> /solveTableau_reaches[re _].
have [_ pa] := reaches_shaped_partitioned re (build_shaped _ _ _ _)
                 (build_partitioned _ _ _ _).
apply: partitioned_writes pa _.
case: (reaches_frame re) => _ ->.
by rewrite buildTableau_eq /= /firstNonBasicVariableColumn addKn.
Qed.

(** C10: a scheduler that reports failure leaves the problem as it was; one
    that reports success has applied, after the solve loop returned, the
    start-time writes of [storeStartTimes], one for each operation, and the
    cyclic scheduler has besides set the initiation interval to the final
    [parameterT]. *)
Theorem schedulers_write_only_on_success (fuel : nat) (prob : Problem)
    (cprob : CyclicProblem) (lastOp : Operation) :
  (forall r prob', scheduleSimplex fuel prob lastOp = Some (r, prob') ->
     if failed r then prob' = prob
     else exists2 s,
       solveTableau fuel (acyclicStart prob lastOp) = Some (success, s) &
       prob' = applyWrites prob (startTimeWrites (getOperations prob) s) /\
       perm_eq [seq w.1 | w <- startTimeWrites (getOperations prob) s]
               (getOperations prob)) /\
  (forall r cprob', scheduleSimplexCyclic fuel cprob lastOp = Some (r, cprob') ->
     if failed r then cprob' = cprob
     else exists2 s,
       solveTableau fuel (cyclicStart cprob lastOp) = Some (success, s) &
       [/\ baseProblem cprob' =
             applyWrites cprob (startTimeWrites (getOperations cprob) s),
           getInitiationInterval cprob' = Some (parameterT s),
           getDistance cprob' = getDistance cprob
         & perm_eq [seq w.1 | w <- startTimeWrites (getOperations cprob) s]
                   (getOperations cprob)]).
Proof.
split=> r p'.
  rewrite /scheduleSimplex /SimplexScheduler_schedule -/(acyclicStart prob lastOp).
  case run: (solveTableau _ _) => [[[] s]|] //; last by case=> <- <-.
  case=> <- <- /=; exists s => //; split=> //.
  exact: solved_writes run.
rewrite /scheduleSimplexCyclic /CyclicSimplexScheduler_schedule.
rewrite -/(cyclicStart cprob lastOp).
case run: (solveTableau _ _) => [[[] s]|] //; last by case=> <- <-.
case=> <- <- /=; exists s => //; split=> //.
exact: solved_writes run.
Qed.

Local Open Scope ring_scope.

Lemma ZaddE (x y : Z) : (x + y)%R = Z.add x y.
Proof. by []. Qed.

Lemma ZmulE (x y : Z) : (x * y)%R = Z.mul x y.
Proof. by []. Qed.

Lemma ZoppE (x : Z) : (- x)%R = Z.opp x.
Proof. by []. Qed.

Lemma Z0E : (0%R : Z) = 0%Z.
Proof. by []. Qed.

Lemma Z1E : (1%R : Z) = 1%Z.
Proof. by []. Qed.

Lemma Zeq_eqP (x y : Z) : reflect (x = y) (x == y).
Proof. exact: eqP. Qed.

Lemma Zsign_expr k : ((-1) ^+ k : Z)%R = 1%Z \/ ((-1) ^+ k : Z)%R = (-1)%Z.
Proof.
rewrite -signr_odd; case: (odd k); [right|left]; first by rewrite expr1.
by rewrite expr0.
Qed.

Lemma unit3_mul (x y : Z) : unit3 x -> unit3 y -> unit3 (x * y)%R.
Proof. rewrite /unit3 ZmulE; nia. Qed.

Lemma unit3_sign k (x : Z) : unit3 x -> unit3 ((-1) ^+ k * x)%R.
Proof. by move=> ux; apply: unit3_mul => //; case: (Zsign_expr k) => ->. Qed.

Lemma network_minor n (A : 'M[Z]_n.+1) node i0 j0 :
  network A node -> network (row' i0 (col' j0 A)) (fun j => node (lift j0 j)).
Proof.
case=> u3 one mone col; split.
- by move=> i j; rewrite !mxE.
- by move=> i j1 j2 n1 n2; rewrite !mxE => e1 e2; apply: (@lift_inj _ j0); apply: one e1 e2.
- by move=> i j1 j2 n1 n2; rewrite !mxE => e1 e2; apply: (@lift_inj _ j0); apply: mone e1 e2.
by move=> j i1 i2 nn; rewrite !mxE => e1 e2; apply: (@lift_inj _ i0); apply: col e1 e2.
Qed.

Lemma unit3_cofactor_term n (A : 'M[Z]_n.+1) (i j : 'I_n.+1) :
  unit3 (A i j) -> unit3 (\det (row' i (col' j A)))%R ->
  unit3 (A i j * cofactor A i j)%R.
Proof. by move=> ua ud; apply: unit3_mul => //; apply: unit3_sign. Qed.

Lemma det_zero_row_sum n (A : 'M[Z]_n.+1) :
  (forall i, \sum_j A i j = 0)%R -> (\det A = 0)%R.
Proof.
move=> rows0.
have Av : A *m (const_mx 1 : 'cV_n.+1) = 0.
  apply/matrixP => i k; rewrite !mxE -[RHS](rows0 i).
  by apply: eq_bigr => j _; rewrite mxE mulr1.
have : (\adj A *m A) *m (const_mx 1 : 'cV_n.+1) = 0 by rewrite -mulmxA Av mulmx0.
rewrite mul_adj_mx mul_scalar_mx => /matrixP /(_ ord0 ord0).
by rewrite !mxE mulr1.
Qed.

Lemma network_det n (A : 'M[Z]_n) (node : pred 'I_n) :
  network A node -> unit3 (\det A)%R.
Proof.
elim: n A node => [|n IH] A node net; first by rewrite det_mx00.
have minor i j : unit3 (\det (row' i (col' j A))).
  exact: IH (network_minor i j net).
case: (net) => u3 one mone col.
have [/existsP[j0 nn]|/existsPn allnode] := boolP [exists j, ~~ node j].
  (* a column with at most one non-zero entry: expand along it *)
  rewrite (expand_det_col A j0).
  have [/existsP[i0 /eqP nz]|/existsPn allz] := boolP [exists i, A i j0 != 0].
    rewrite (bigD1 i0) //= big1 ?addr0; last exact: unit3_cofactor_term.
    move=> i ne; have [->|/eqP nzi] := eqVneq (A i j0) 0; first by rewrite mul0r.
    by move: ne; rewrite (col j0 i i0 nn nzi nz) eqxx.
  rewrite big1 // => i _; move: (allz i); rewrite negbK => /eqP->.
  by rewrite mul0r.
have isnode j : node j by move: (allnode j); rewrite negbK.
have [/existsP[i0 /forallP single]|/existsPn double] :=
  boolP [exists i, [forall j1, forall j2,
           (A i j1 != 0) ==> (A i j2 != 0) ==> (j1 == j2)]].
  (* a row with at most one non-zero entry: expand along it *)
  rewrite (expand_det_row A i0).
  have [/existsP[j0 nz]|/existsPn allz] := boolP [exists j, A i0 j != 0].
    rewrite (bigD1 j0) //= big1 ?addr0; last exact: unit3_cofactor_term.
    move=> j ne; have [->|nzj] := eqVneq (A i0 j) 0; first by rewrite mul0r.
    move: (single j) => /forallP /(_ j0); rewrite nzj nz /= => /eqP eqj.
    by move: ne; rewrite eqj eqxx.
  rewrite big1 // => j _; move: (allz j); rewrite negbK => /eqP->.
  by rewrite mul0r.
(* every row has a 1 and a -1 and nothing else: the columns sum to zero *)
rewrite det_zero_row_sum // => i.
move: (double i); rewrite negb_forall => /existsP[j1].
rewrite negb_forall => /existsP[j2]; rewrite !negb_imply => /and3P[nz1 nz2 ne].
have others j : j != j1 -> j != j2 -> A i j = 0.
  move=> n1 n2; apply/eqP; apply/negPn/negP => nzj.
  have := u3 i j; have := u3 i j1; have := u3 i j2.
  move/eqP: nzj => nzj; move/eqP: (nz1) => nz1'; move/eqP: (nz2) => nz2'.
  rewrite /unit3 => b2 b1 bj.
  have cases : (A i j = 1 \/ A i j = -1)%Z by rewrite Z0E in nzj; lia.
  have cases1 : (A i j1 = 1 \/ A i j1 = -1)%Z by rewrite Z0E in nz1'; lia.
  have cases2 : (A i j2 = 1 \/ A i j2 = -1)%Z by rewrite Z0E in nz2'; lia.
  case: cases => ej; case: cases1 => e1; case: cases2 => e2;
    try (by move: n1; rewrite (one i j j1 (isnode _) (isnode _) ej e1) eqxx);
    try (by move: n1; rewrite (mone i j j1 (isnode _) (isnode _) ej e1) eqxx);
    try (by move: n2; rewrite (one i j j2 (isnode _) (isnode _) ej e2) eqxx);
    try (by move: n2; rewrite (mone i j j2 (isnode _) (isnode _) ej e2) eqxx);
    try (by move: ne; rewrite (one i j1 j2 (isnode _) (isnode _) e1 e2) eqxx);
    by move: ne; rewrite (mone i j1 j2 (isnode _) (isnode _) e1 e2) eqxx.
rewrite (bigD1 j1) //= (bigD1 j2) 1?eq_sym //= big1 ?addr0.
  by move=> j /andP[n1 n2]; apply: others.
have := u3 i j1; have := u3 i j2; rewrite /unit3 => b2 b1.
move/eqP: (nz1) => nz1'; move/eqP: (nz2) => nz2'.
have cases1 : (A i j1 = 1 \/ A i j1 = -1)%Z by rewrite Z0E in nz1'; lia.
have cases2 : (A i j2 = 1 \/ A i j2 = -1)%Z by rewrite Z0E in nz2'; lia.
case: cases1 => e1; case: cases2 => e2; rewrite ?e1 ?e2 //.
  by move: ne; rewrite (one i j1 j2 (isnode _) (isnode _) e1 e2) eqxx.
by move: ne; rewrite (mone i j1 j2 (isnode _) (isnode _) e1 e2) eqxx.
Qed.

Local Close Scope ring_scope.

Local Open Scope ring_scope.

Lemma det_unit_col n (A : 'M[Z]_n) (p : 'I_n) :
  (forall i k, k != p -> A i k = if i == k then 1%Z else 0%Z) ->
  (\det A)%R = A p p.
Proof.
move=> unitc; rewrite (expand_det_row A p) (bigD1 p) //= big1 ?addr0.
  by move=> k ne; rewrite unitc // eq_sym (negbTE ne) mul0r.
rewrite /cofactor -signr_odd oddD addbb expr0 mul1r.
have -> : row' p (col' p A) = 1%:M.
  apply/matrixP => i k; rewrite !mxE unitc; first by rewrite eq_sym neq_lift.
  by rewrite (eqtype.inj_eq (@lift_inj _ p)); case: eqP.
by rewrite det1 mulr1.
Qed.

Local Close Scope ring_scope.

Lemma partitioned_uniq s :
  partitioned s ->
  [/\ uniq (basicVariables s), uniq (nonBasicVariables s)
    & forall v, v \in basicVariables s -> v \in nonBasicVariables s -> False].
Proof.
case=> pe _ _; have := iota_uniq 0 (numVariables s).
rewrite -(perm_uniq pe) cat_uniq => /and3P[ub /hasPn dis unb]; split=> //.
by move=> v vb vn; move: (dis v vn); rewrite vb.
Qed.

Lemma coeffRow_nonbasic s r j :
  partitioned s -> j < size (nonBasicVariables s) ->
  coeffRow s r (nth 0 (nonBasicVariables s) j) =
  tab s r (firstNonBasicVariableColumn + j).
Proof.
move=> /partitioned_uniq[_ unb _] ltj.
by rewrite /coeffRow mem_nth // index_uniq.
Qed.

Lemma coeffRow_basic s r k :
  partitioned s -> r <= size (basicVariables s) -> k < size (basicVariables s) ->
  coeffRow s r (nth 0 (basicVariables s) k) =
  if r == firstConstraintRow + k then 1%Z else 0%Z.
Proof.
move=> /partitioned_uniq[ub _ dis] ler ltk; rewrite /coeffRow.
case: ifP => [inn|_]; first by case: (dis _ (mem_nth 0 ltk) inn).
case: r ler => [|r] ler //=; rewrite subn1 /= nth_uniq //.
by rewrite /firstConstraintRow add1n eqSS eq_sym.
Qed.

Lemma coeffRow_other s r v :
  r <= size (basicVariables s) ->
  v \notin basicVariables s ++ nonBasicVariables s -> coeffRow s r v = 0%Z.
Proof.
move=> ler; rewrite mem_cat negb_or /coeffRow => /andP[nb /negbTE->].
case: r ler => [|r] ler //=; rewrite subn1 /=.
by case: eqP => // ev; move: nb; rewrite ev mem_nth.
Qed.

Lemma coeff_nonbasic s i j :
  partitioned s -> j < size (nonBasicVariables s) ->
  coeff s i (nth 0 (nonBasicVariables s) j) =
  tab s (firstConstraintRow + i) (firstNonBasicVariableColumn + j).
Proof. exact: coeffRow_nonbasic. Qed.

Lemma coeff_basic s i k :
  partitioned s -> i < size (basicVariables s) -> k < size (basicVariables s) ->
  coeff s i (nth 0 (basicVariables s) k) = if i == k then 1%Z else 0%Z.
Proof.
by move=> pa lti ltk; rewrite /coeff coeffRow_basic // eqn_add2l.
Qed.

Lemma unimodular_entry s i j :
  partitioned s -> unimodular s ->
  i < nRows s - firstConstraintRow -> j < size (nonBasicVariables s) ->
  unit3 (tab s (firstConstraintRow + i) (firstNonBasicVariableColumn + j)).
Proof.
move=> pa um lti ltj; case: (pa) => _ _ sb.
case: (partitioned_uniq pa) => ub unb dis.
pose v := nth 0 (nonBasicVariables s) j.
pose f (k : 'I_(nRows s - firstConstraintRow)) : nat :=
  if (k : nat) == i then v else nth 0 (basicVariables s) k.
have injf : injective f.
  move=> k1 k2; rewrite /f; case: eqP => [e1|_]; case: eqP => [e2|_].
  - by move=> _; apply: val_inj; rewrite /= e1 e2.
  - move=> ev; case: (dis v); rewrite ?mem_nth //.
    by rewrite ev mem_nth // sb.
  - move=> ev; case: (dis v); rewrite ?mem_nth //.
    by rewrite -ev mem_nth // sb.
  by move/eqP; rewrite nth_uniq ?sb // => /eqP ek; apply: val_inj.
have := um f injf; rewrite (@det_unit_col _ _ (Ordinal lti)); last first.
  by rewrite mxE /f /= eqxx coeff_nonbasic.
move=> k l ne; rewrite mxE /f.
have -> : ((l : nat) == i) = false by apply/negbTE; move: ne.
by rewrite coeff_basic ?sb.
Qed.

Lemma coeffRow_pivot s pr pc r v :
  shaped s -> partitioned s -> partitioned (pivot s pr pc) ->
  firstConstraintRow <= pr < nRows s ->
  firstNonBasicVariableColumn <= pc < nColumns s ->
  tab s pr pc = (-1)%Z ->
  r < nRows s ->
  coeffRow (pivot s pr pc) r v =
  if r == pr then (- coeffRow s pr v)%Z
  else (coeffRow s r v + tab s r pc * coeffRow s pr v)%Z.
Proof.
move=> [imp0 nr0 nc1] pa pa' /andP[lor ltr] /andP[loc ltc] pm1 ltrn.
case: (pivot_spec imp0 ltr ltc) => [[_ enr enc] enb eb _ tabs].
case: (pa) => pe snb sb; case: (pa') => pe' snb' sb'.
case: (partitioned_uniq pa) => ub unb dis.
set p := pr - firstConstraintRow; set cj := pc - firstNonBasicVariableColumn.
have ltp : p < size (basicVariables s).
  by rewrite sb; apply: ltn_sub2r => //; apply: leq_ltn_trans lor ltr.
have ltcj : cj < size (nonBasicVariables s).
  by rewrite snb; apply: ltn_sub2r => //; apply: leq_ltn_trans loc ltc.
have epr : firstConstraintRow + p = pr by rewrite /p subnKC.
have epc : firstNonBasicVariableColumn + cj = pc by rewrite /cj subnKC.
have lerb : r <= size (basicVariables s).
  by rewrite sb /firstConstraintRow subn1 -ltnS prednK.
have lerb' : r <= size (basicVariables (pivot s pr pc)) by rewrite sb' enr -sb.
have lepb : pr <= size (basicVariables s).
  by rewrite sb /firstConstraintRow subn1 -ltnS prednK.
have [vin|vnin] := boolP (v \in nonBasicVariables (pivot s pr pc)).
  (* a non-basic variable after the pivot *)
  have ltj : index v (nonBasicVariables (pivot s pr pc))
             < size (nonBasicVariables s).
    by move: vin; rewrite -index_mem enb size_set_nth (maxn_idPr _).
  have := nth_index 0 vin; set j := index v _ in ltj * => ev.
  have ltj' : j < size (nonBasicVariables (pivot s pr pc)).
    by rewrite snb' enc -snb.
  have ltjc : firstNonBasicVariableColumn + j < nColumns s.
    by move: ltj; rewrite snb -(ltn_add2l firstNonBasicVariableColumn) subnKC //;
       apply: leq_ltn_trans loc ltc.
  rewrite -{1}ev coeffRow_nonbasic // tabs //.
  have eqj : (firstNonBasicVariableColumn + j == pc) = (j == cj).
    by rewrite -epc eqn_add2l.
  rewrite eqj; move: ev; rewrite enb nth_set_nth_if.
  case: (j =P cj) => [ejc|nejc] ev.
    rewrite -ev -/p !coeffRow_basic // epr eqxx.
    by case: (r =P pr) => _; lia.
  rewrite -ev !coeffRow_nonbasic //.
  by case: (r =P pr) => _; lia.
have [vin'|vnin'] := boolP (v \in basicVariables (pivot s pr pc)).
  (* a basic variable after the pivot *)
  have ltk : index v (basicVariables (pivot s pr pc)) < size (basicVariables s).
    by move: vin'; rewrite -index_mem eb size_set_nth (maxn_idPr _).
  have := nth_index 0 vin'; set k := index v _ in ltk * => ev.
  have ltk' : k < size (basicVariables (pivot s pr pc)) by rewrite sb' enr -sb.
  rewrite -{1}ev coeffRow_basic //.
  move: ev; rewrite eb nth_set_nth_if -/p -/cj.
  case: (k =P p) => [ekp|nekp] ev.
    rewrite -ev !coeffRow_nonbasic // epc pm1 ekp epr.
    by case: (r =P pr) => _; lia.
  rewrite -ev !coeffRow_basic //.
  have -> : (pr == firstConstraintRow + k) = false.
    by apply/negbTE/eqP => e; apply: nekp; rewrite /p e addKn.
  case: (r =P pr) => [->|_]; last by lia.
  have -> : (pr == firstConstraintRow + k) = false.
    by apply/negbTE/eqP => e; apply: nekp; rewrite /p e addKn.
  by [].
(* not a variable *)
have notin' : v \notin basicVariables (pivot s pr pc) ++ nonBasicVariables (pivot s pr pc).
  by rewrite mem_cat negb_or vnin vnin'.
have notin : v \notin basicVariables s ++ nonBasicVariables s.
  have eqV : numVariables (pivot s pr pc) = numVariables s.
    by rewrite /numVariables enr enc.
  by rewrite (perm_mem pe) -eqV -(perm_mem pe').
rewrite coeffRow_other // !coeffRow_other //.
by case: ifP => _; lia.
Qed.

Lemma coeff_pivot s pr pc i v :
  shaped s -> partitioned s -> partitioned (pivot s pr pc) ->
  firstConstraintRow <= pr < nRows s ->
  firstNonBasicVariableColumn <= pc < nColumns s ->
  tab s pr pc = (-1)%Z ->
  i < nRows s - firstConstraintRow ->
  coeff (pivot s pr pc) i v =
  if i == pr - firstConstraintRow then (- coeff s (pr - firstConstraintRow) v)%Z
  else (coeff s i v
        + tab s (firstConstraintRow + i) pc * coeff s (pr - firstConstraintRow) v)%Z.
Proof.
move=> sh pa pa' inr inc pm1 lti; case/andP: (inr) => lor ltr.
have lti1 : firstConstraintRow + i < nRows s.
  by move: lti lor ltr; rewrite /firstConstraintRow => a b c; nat_lia.
rewrite /coeff coeffRow_pivot // subnKC //.
by rewrite -{1}(subnKC lor) eqn_add2l.
Qed.

Lemma pivot_partitioned s pr pc :
  shaped s -> partitioned s ->
  firstConstraintRow <= pr < nRows s ->
  firstNonBasicVariableColumn <= pc < nColumns s ->
  partitioned (pivot s pr pc).
Proof.
move=> [imp0 nr nc] [pe snb sb] /andP[lor ltr] /andP[loc ltc].
case: (pivot_spec imp0 ltr ltc) => [[_ enr enc] enb eb _ _].
have lti : pr - firstConstraintRow < size (basicVariables s).
  by rewrite sb; apply: ltn_sub2r => //; apply: leq_ltn_trans lor ltr.
have ltj : pc - firstNonBasicVariableColumn < size (nonBasicVariables s).
  by rewrite snb; apply: ltn_sub2r => //; apply: leq_ltn_trans loc ltc.
split; rewrite /numVariables ?enr ?enc ?enb ?eb ?size_set_nth.
- by apply: perm_trans pe; apply: perm_swap_nth.
- by rewrite (maxn_idPr _) // snb.
by rewrite (maxn_idPr _) // sb.
Qed.

Local Open Scope ring_scope.

Lemma unimodular_pivot s pr pc :
  shaped s -> partitioned s -> unimodular s ->
  (firstConstraintRow <= pr < nRows s)%nat ->
  (firstNonBasicVariableColumn <= pc < nColumns s)%nat ->
  tab s pr pc = (-1)%Z ->
  unimodular (pivot s pr pc).
Proof.
move=> sh pa um inr inc pm1.
have pa' := pivot_partitioned sh pa inr inc.
have coeffs := fun i v => @coeff_pivot s pr pc i v sh pa pa' inr inc pm1.
case: (pivot_frame s pr pc) => _ enr _.
rewrite /unimodular; move: coeffs; rewrite enr => coeffs f injf.
have ltp : (pr - firstConstraintRow < nRows s - firstConstraintRow)%nat.
  by case/andP: inr => lor ltr; apply: ltn_sub2r => //; apply: leq_ltn_trans lor ltr.
pose p := Ordinal ltp.
pose M : 'M[Z]_(nRows s - firstConstraintRow) := \matrix_(i, j) coeff s i (f j).
pose U : 'M[Z]_(nRows s - firstConstraintRow) :=
  \matrix_(i, k) if k == p then (if i == p then (-1)%Z
                                 else tab s (firstConstraintRow + i) pc)
                 else if i == k then 1%Z else 0%Z.
have -> : \matrix_(i, j) coeff (pivot s pr pc) i (f j) = U *m M.
  apply/matrixP => i j; rewrite !mxE coeffs // (bigD1 p) //= !mxE eqxx.
  have [eip|neip] := eqVneq i p.
    rewrite big1 ?addr0.
      move=> k nek; rewrite !mxE (negbTE nek) eip eq_sym (negbTE nek).
      by rewrite mul0r.
    by rewrite eip eqxx /= !(ZaddE, ZmulE, ZoppE, Z0E, Z1E); lia.
  rewrite (bigD1 i) //= big1 ?addr0.
    move=> k /andP[nekp neki]; rewrite !mxE (negbTE nekp) eq_sym (negbTE neki).
    by rewrite mul0r.
  rewrite !mxE (negbTE neip) eqxx.
  have -> : ((i : nat) == (pr - firstConstraintRow)%nat) = false.
    by apply/negbTE; move: neip.
  by rewrite !(ZaddE, ZmulE, ZoppE, Z0E, Z1E); lia.
rewrite det_mulmx (@det_unit_col _ U p).
  by move=> i k nek; rewrite mxE (negbTE nek).
rewrite mxE eqxx; apply: unit3_mul; last exact: um.
by rewrite /unit3; lia.
Qed.

Local Close Scope ring_scope.

Lemma baseFill_acyclic prob : baseFill prob (fillConstraintRow prob).
Proof. by []. Qed.

Lemma baseFill_cyclic (prob : CyclicProblem) :
  baseFill prob (cyclicFillConstraintRow prob).
Proof.
move=> n dep c le2; rewrite nth_cyclicFillConstraintRow.
case: (getDistance prob dep) => // d.
by case: eqP le2 => // ->.
Qed.

Lemma index_iota0 n v : v < n -> index v (iota 0 n) = v.
Proof.
move=> ltv; have {1}-> : v = nth 0 (iota 0 n) v by rewrite nth_iota.
by rewrite index_uniq ?size_iota ?iota_uniq.
Qed.

Lemma coeff_build prob fill lastOp T i v :
  baseFill prob fill -> i < size (allDependences prob) ->
  coeff (buildTableau prob fill lastOp T) i v =
  if v < size (getOperations prob) then
    let dep := nth (Dep 0 0) (allDependences prob) i in
    let oc := opColumnsOf (getOperations prob) in
    if firstNonBasicVariableColumn + v == oc (getDestination dep) then (-1)%Z
    else if firstNonBasicVariableColumn + v == oc (getSource dep) then 1%Z
    else 0%Z
  else if v == size (getOperations prob) + i then 1%Z else 0%Z.
Proof.
move=> bf lti; rewrite /coeff /coeffRow leq_addr addKn andTb.
have -> : nonBasicVariables (buildTableau prob fill lastOp T)
          = iota 0 (size (getOperations prob)) by rewrite buildTableau_eq.
have -> : basicVariables (buildTableau prob fill lastOp T)
          = iota (size (getOperations prob)) (size (allDependences prob)).
  by rewrite buildTableau_eq.
rewrite mem_iota add0n /=; case: ifP => [ltv|_]; last by rewrite nth_iota.
rewrite index_iota0 // tab_build_row // bf // nth_fillConstraintRow.
by [].
Qed.

Lemma build_unimodular prob fill lastOp T :
  baseFill prob fill -> unimodular (buildTableau prob fill lastOp T).
Proof.
move=> bf f injf.
have bound (i : 'I_(nRows (buildTableau prob fill lastOp T) - firstConstraintRow)) :
    i < size (allDependences prob).
  have eD : nRows (buildTableau prob fill lastOp T) - firstConstraintRow
            = size (allDependences prob) by rewrite buildTableau_eq /= subn1.
  by rewrite -eD.
apply: (@network_det _ _ (fun j => f j < size (getOperations prob))).
split.
- move=> i j; rewrite mxE coeff_build ?bound //= /unit3.
  by do !case: ifP => _; lia.
- move=> i j1 j2 n1 n2; rewrite !mxE !coeff_build ?bound // n1 n2 /=.
  case: ifP => // _; case: eqP => // e1 _; case: ifP => // _; case: eqP => // e2 _.
  by apply: injf; apply/eqP; rewrite -(eqn_add2l firstNonBasicVariableColumn) e1 e2.
- move=> i j1 j2 n1 n2; rewrite !mxE !coeff_build ?bound // n1 n2 /=.
  case: eqP => [e1 _|_]; last by case: ifP.
  case: eqP => [e2 _|_]; last by case: ifP.
  by apply: injf; apply/eqP; rewrite -(eqn_add2l firstNonBasicVariableColumn) e1 e2.
move=> j i1 i2 /negbTE nn; rewrite !mxE !coeff_build ?bound // nn.
case: eqP => // e1 _; case: eqP => // e2 _; apply: val_inj.
by apply/eqP; rewrite -(eqn_add2l (size (getOperations prob))) -e1 -e2.
Qed.

Lemma build_tableauInv prob fill lastOp T :
  baseFill prob fill -> tableauInv (buildTableau prob fill lastOp T).
Proof.
move=> bf; split; [exact: build_shaped|exact: build_partitioned|].
exact: build_unimodular.
Qed.

Lemma pivot_choice_range s pr pc :
  firstViolatedRow s pr -> bestPivotColumn s pr pc ->
  [/\ firstConstraintRow <= pr < nRows s,
      firstNonBasicVariableColumn <= pc < nColumns s
    & (tab s pr pc < 0)%Z].
Proof. by case=> inr _ _ [inc neg _ _]. Qed.

Lemma tableauInv_entry s r c :
  tableauInv s -> firstConstraintRow <= r < nRows s ->
  firstNonBasicVariableColumn <= c < nColumns s -> unit3 (tab s r c).
Proof.
move=> [sh pa um] /andP[lor ltr] /andP[loc ltc]; case: (pa) => _ snb sb.
have := @unimodular_entry s (r - firstConstraintRow)
          (c - firstNonBasicVariableColumn) pa um.
rewrite !subnKC //; apply.
  by apply: ltn_sub2r => //; apply: leq_ltn_trans lor ltr.
by rewrite snb; apply: ltn_sub2r => //; apply: leq_ltn_trans loc ltc.
Qed.

Lemma tableauInv_pivot_entry s pr pc :
  tableauInv s -> firstViolatedRow s pr -> bestPivotColumn s pr pc ->
  tab s pr pc = (-1)%Z.
Proof.
move=> inv fv best; case: (pivot_choice_range fv best) => inr inc neg.
by have := tableauInv_entry inv inr inc; rewrite /unit3; lia.
Qed.

Lemma tableauInv_pivot s pr pc :
  tableauInv s -> firstViolatedRow s pr -> bestPivotColumn s pr pc ->
  tableauInv (pivot s pr pc).
Proof.
move=> inv fv best; case: (pivot_choice_range fv best) => inr inc neg.
have pm1 := tableauInv_pivot_entry inv fv best.
case: inv => sh pa um; split.
- case: sh => imp0 nr nc; case/andP: inr => _ ltr; case/andP: inc => _ ltc.
  case: (pivot_spec imp0 ltr ltc) => [[_ enr enc] _ _ imp0' _].
  by split=> //; rewrite ?enr ?enc.
- exact: pivot_partitioned.
exact: unimodular_pivot.
Qed.

Lemma step_tableauInv s s' :
  solveStep s = Continue s' -> tableauInv s -> tableauInv s'.
Proof.
move=> st inv; move: (solveStepP s); rewrite st.
case=> pr fv [[pc best ->]|[_ _ ->]]; first exact: tableauInv_pivot.
by case: inv => sh pa um; split.
Qed.

Lemma reaches_tableauInv s0 s :
  solveReaches s0 s -> tableauInv s0 -> tableauInv s.
Proof. by move=> re inv0; elim: re => // s1 s2 _ inv1 st; apply: step_tableauInv st inv1. Qed.

Lemma sumZ_ext n F G : (forall v, v < n -> F v = G v) -> sumZ n F = sumZ n G.
Proof. by move=> ext; apply: eq_big_nat => v /andP[_ /ext]. Qed.

Lemma sumZ_add n F G :
  sumZ n (fun v => F v + G v)%Z = (sumZ n F + sumZ n G)%Z.
Proof. by rewrite /sumZ -ZaddE -big_split. Qed.

Lemma sumZ_scale n a F : sumZ n (fun v => a * F v)%Z = (a * sumZ n F)%Z.
Proof. by rewrite /sumZ -ZmulE mulr_sumr. Qed.

Lemma sumZ_opp n F : sumZ n (fun v => - F v)%Z = (- sumZ n F)%Z.
Proof.
have -> : (- sumZ n F = -1 * sumZ n F)%Z by lia.
by rewrite -sumZ_scale; apply: sumZ_ext => v _; lia.
Qed.

Lemma sumZ_ge0 n F : (forall v, v < n -> (0 <= F v)%Z) -> (0 <= sumZ n F)%Z.
Proof.
move=> ge0; rewrite /sumZ big_nat_cond.
by elim/big_ind: _ => // [x y x0 y0|v /andP[/andP[_ /ge0]]] //; rewrite ZaddE; lia.
Qed.

Lemma sumZ_zero n F : (forall v, v < n -> F v = 0%Z) -> sumZ n F = 0%Z.
Proof.
by move=> z; rewrite /sumZ big_nat_cond big1 // => v /andP[/andP[_ /z]].
Qed.

Lemma sumZ_single n F k :
  k < n -> (forall v, v < n -> v != k -> F v = 0%Z) -> sumZ n F = F k.
Proof.
move=> ltk z; rewrite /sumZ (bigD1_seq k) /= ?mem_index_iota ?iota_uniq //.
rewrite big_nat_cond big1 ?addr0 // => v /andP[/andP[_ ltv] nek].
exact: z.
Qed.

Lemma pivot_numVariables s pr pc :
  numVariables (pivot s pr pc) = numVariables s.
Proof. by rewrite /numVariables; case: (pivot_frame s pr pc) => _ -> ->. Qed.

Lemma rowSum_pivot s pr pc x r :
  shaped s -> partitioned s ->
  firstConstraintRow <= pr < nRows s ->
  firstNonBasicVariableColumn <= pc < nColumns s ->
  tab s pr pc = (-1)%Z -> r < nRows s ->
  rowSum (pivot s pr pc) x r =
  if r == pr then (- rowSum s x pr)%Z
  else (rowSum s x r + tab s r pc * rowSum s x pr)%Z.
Proof.
move=> sh pa inr inc pm1 ltr.
have pa' := pivot_partitioned sh pa inr inc.
rewrite /rowSum pivot_numVariables.
case: (r =P pr) => [er|ner].
  rewrite -sumZ_opp; apply: sumZ_ext => v _.
  by rewrite coeffRow_pivot // er eqxx; lia.
rewrite -sumZ_scale -sumZ_add; apply: sumZ_ext => v _.
rewrite coeffRow_pivot //; case: eqP => // _; lia.
Qed.

Lemma rowRhs_pivot s pr pc tau r :
  shaped s ->
  firstConstraintRow <= pr < nRows s ->
  firstNonBasicVariableColumn <= pc < nColumns s -> r < nRows s ->
  rowRhs (pivot s pr pc) tau r =
  if r == pr then (- rowRhs s tau pr)%Z
  else (rowRhs s tau r + tab s r pc * rowRhs s tau pr)%Z.
Proof.
move=> [imp0 nr nc] /andP[lor ltpr] /andP[loc ltc] ltr.
case: (pivot_spec imp0 ltpr ltc) => _ _ _ _ tabs.
have c0 : parameter1Column < nColumns s by apply: ltn_trans nc.
rewrite /rowRhs !tabs //.
have -> : (parameter1Column == pc) = false by apply/negbTE; rewrite neq_ltn (leq_trans _ loc).
have -> : (parameterTColumn == pc) = false by apply/negbTE; rewrite neq_ltn (leq_trans _ loc).
by case: eqP => _; lia.
Qed.

Lemma satisfies_pivot s pr pc x tau :
  shaped s -> partitioned s ->
  firstConstraintRow <= pr < nRows s ->
  firstNonBasicVariableColumn <= pc < nColumns s ->
  tab s pr pc = (-1)%Z ->
  satisfies (pivot s pr pc) x tau <-> satisfies s x tau.
Proof.
move=> sh pa inr inc pm1; case: (pivot_frame s pr pc) => _ enr _.
have rs r := @rowSum_pivot s pr pc x r sh pa inr inc pm1.
have rr r := @rowRhs_pivot s pr pc tau r sh inr inc.
have ltpr : pr < nRows s by case/andP: inr.
split=> sat r inrr; move: (inrr); rewrite ?enr => /andP[lo ltr].
  have := sat pr; rewrite enr rs // rr // eqxx => /(_ inr) eqp.
  have := sat r; rewrite enr rs // rr // => /(_ inrr).
  by case: eqP => [->|_]; nia.
rewrite rs // rr //; have := sat pr inr; have := sat r.
by rewrite lo ltr => /(_ isT); case: eqP => _; nia.
Qed.

Lemma objectiveGap_pivot s pr pc x tau :
  shaped s -> partitioned s ->
  firstConstraintRow <= pr < nRows s ->
  firstNonBasicVariableColumn <= pc < nColumns s ->
  tab s pr pc = (-1)%Z -> satisfies s x tau ->
  objectiveGap (pivot s pr pc) x tau = objectiveGap s x tau.
Proof.
move=> sh pa inr inc pm1 sat; case: (sh) => _ nr _.
rewrite /objectiveGap rowSum_pivot // rowRhs_pivot //.
have -> : (objectiveRow == pr) = false.
  by apply/negbTE; rewrite neq_ltn; case/andP: inr => ->.
by rewrite (sat pr inr); lia.
Qed.

Lemma coeffRow_cases s r v :
  partitioned s ->
  (exists j, [/\ j < size (nonBasicVariables s),
                 firstNonBasicVariableColumn + j < nColumns s,
                 v = nth 0 (nonBasicVariables s) j
               & coeffRow s r v = tab s r (firstNonBasicVariableColumn + j)]) \/
  (0 <= coeffRow s r v <= 1)%Z.
Proof.
move=> [_ snb _]; rewrite /coeffRow; case: ifP => [vin|_]; last first.
  by right; case: ifP => _; lia.
left; exists (index v (nonBasicVariables s)); split=> //.
- by rewrite index_mem.
- by move: vin; rewrite -index_mem snb /firstNonBasicVariableColumn => a; nat_lia.
by rewrite nth_index.
Qed.

Lemma dualFeasible_pivot s pr pc :
  tableauInv s -> firstViolatedRow s pr -> bestPivotColumn s pr pc ->
  dualFeasible s -> dualFeasible (pivot s pr pc).
Proof.
move=> inv fv best df v.
case: (pivot_choice_range fv best) => inr inc neg.
have pm1 := tableauInv_pivot_entry inv fv best.
case: (inv) => sh pa um; case: (sh) => _ nr _; case: (pa) => _ snb _.
have pa' := pivot_partitioned sh pa inr inc.
rewrite coeffRow_pivot //.
have -> : (objectiveRow == pr) = false.
  by apply/negbTE; rewrite neq_ltn; case/andP: inr => ->.
have objc : (0 <= tab s objectiveRow pc)%Z.
  case/andP: (inc) => loc ltc.
  have ltj : pc - firstNonBasicVariableColumn < size (nonBasicVariables s).
    by rewrite snb; move: loc ltc; rewrite /firstNonBasicVariableColumn => a b; nat_lia.
  have := df (nth 0 (nonBasicVariables s) (pc - firstNonBasicVariableColumn)).
  by rewrite coeffRow_nonbasic // subnKC.
have := df v.
case: (coeffRow_cases pr v pa) => [[j [ltj ltjc ev ->]]|]; last by nia.
rewrite {1 2}ev coeffRow_nonbasic // => objj.
have inj : firstNonBasicVariableColumn <= firstNonBasicVariableColumn + j < nColumns s.
  by rewrite leq_addr.
have := tableauInv_entry inv inr inj; rewrite /unit3 => u3.
case: best => _ _ mx _; have := mx _ inj.
by nia.
Qed.

Lemma solveInv_start s0 : tableauInv s0 -> dualFeasible s0 -> solveInv s0 s0.
Proof. by split. Qed.

Lemma step_solveInv s0 s s' :
  solveStep s = Continue s' -> solveInv s0 s -> solveInv s0 s'.
Proof.
move=> st [inv df [enr enc] sols obj]; move: (solveStepP s); rewrite st.
case=> pr fv [[pc best es']|[_ _ ->]]; last by split.
case: (pivot_choice_range fv best) => inr inc neg.
have pm1 := tableauInv_pivot_entry inv fv best.
case: (inv) => sh pa um; rewrite es'; split.
- exact: tableauInv_pivot.
- exact: dualFeasible_pivot.
- by case: (pivot_frame s pr pc) => _ -> ->.
- by move=> x tau; rewrite satisfies_pivot.
move=> x tau; rewrite satisfies_pivot // => sat.
by rewrite objectiveGap_pivot // obj.
Qed.

Lemma reaches_solveInv s0 s :
  solveReaches s0 s -> tableauInv s0 -> dualFeasible s0 -> solveInv s0 s.
Proof.
move=> re inv df; elim: re => [|s1 s2 _ IH st]; first exact: solveInv_start.
exact: step_solveInv st IH.
Qed.

Lemma rowSum_ge0 s r x :
  partitioned s -> noPivotColumn s r -> nonNegative x ->
  (0 <= rowSum s x r)%Z.
Proof.
move=> pa nopc xge0; apply: sumZ_ge0 => v _; have := xge0 v.
case: (coeffRow_cases r v pa) => [[j [ltj ltjc ev ->]]|]; last by nia.
by have := nopc (firstNonBasicVariableColumn + j); rewrite leq_addr ltjc => /(_ isT); nia.
Qed.

Lemma step_infeasibleBelow s0 s s' :
  solveStep s = Continue s' -> solveInv s0 s -> (0 <= parameterT s)%Z ->
  infeasibleBelow s0 s -> infeasibleBelow s0 s'.
Proof.
move=> st [inv _ _ sols _] Tge0 below; move: (solveStepP s); rewrite st.
case=> pr fv [[pc best ->]|[nopc pos ->]].
  by move=> tau x; case: (pivot_frame s pr pc) => -> _ _; apply: below.
move=> tau x; rewrite [parameterT (with_parameterT _ _)]/= => range xge0 sat0.
case: (Z.lt_ge_cases tau (parameterT s)) => [lt|ge].
  by apply: (below tau x) => //; lia.
case: (inv) => _ pa _; case: (fv) => inr viol _.
have := sols x tau; case=> _ /(_ sat0) /(_ pr inr) eqrow.
have := rowSum_ge0 pa nopc xge0; rewrite eqrow /rowRhs => rhs0.
move: viol; rewrite /rowValue -/(tab s pr parameter1Column).
rewrite -/(tab s pr parameterTColumn) => viol.
have neg : (tab s pr parameter1Column < 0)%Z by nia.
case: (grownParameterT_ceil neg pos) => _ _ _ least.
by have := least tau; lia.
Qed.

Lemma toInt_id z : (- 2 ^ 31 <= z < 2 ^ 31)%Z -> toInt z = z.
Proof.
rewrite /toInt; change (2 ^ 31)%Z with 2147483648%Z.
change (2 ^ 32)%Z with 4294967296%Z => range.
by rewrite Z.mod_small; lia.
Qed.

Lemma toInt_toUnsigned z : toInt (toUnsigned z) = toInt z.
Proof. by rewrite /toInt /toUnsigned Z.add_mod_idemp_l. Qed.

Lemma toUnsigned_id z : (0 <= z < 2 ^ 32)%Z -> toUnsigned z = z.
Proof. by move=> range; rewrite /toUnsigned Z.mod_small. Qed.

Lemma stored_latency l :
  (0 <= l <= 2 ^ 31)%Z -> toInt (toUnsigned (- toUnsigned l)) = (- l)%Z.
Proof.
move=> range.
have r32 : (0 <= l < 2 ^ 32)%Z.
  move: range; change (2 ^ 31)%Z with 2147483648%Z.
  by change (2 ^ 32)%Z with 4294967296%Z; lia.
rewrite toInt_toUnsigned (toUnsigned_id r32); apply: toInt_id.
by move: range; change (2 ^ 31)%Z with 2147483648%Z; lia.
Qed.

Lemma stored_distance d : (0 <= d < 2 ^ 31)%Z -> toInt (toUnsigned d) = d.
Proof.
move=> range; rewrite toInt_toUnsigned; apply: toInt_id.
by move: range; change (2 ^ 31)%Z with 2147483648%Z; lia.
Qed.

Lemma storedDistance_inRange (prob : CyclicProblem) dep :
  distancesInRange prob -> dep \in allDependences prob ->
  storedDistance prob dep = distanceOf prob dep.
Proof.
move=> inrange /inrange; rewrite /storedDistance /distanceOf.
by case: (getDistance prob dep) => // d; apply: stored_distance.
Qed.

Lemma fillsWith_acyclic prob : fillsWith prob (fillConstraintRow prob) (fun _ => 0%Z).
Proof.
move=> n dep c; case: eqP => // ->.
by rewrite nth_fillConstraintRow !opColumnsOf_neq1.
Qed.

Lemma fillsWith_cyclic (prob : CyclicProblem) :
  fillsWith prob (cyclicFillConstraintRow prob) (storedDistance prob).
Proof.
move=> n dep c; rewrite nth_cyclicFillConstraintRow /storedDistance.
case: (getDistance prob dep) => [d|] //; case: eqP => // ->.
by rewrite nth_fillConstraintRow !opColumnsOf_neq1.
Qed.

Lemma opColumnsOf_index ops op :
  uniq ops -> op \in ops ->
  opColumnsOf ops op = firstNonBasicVariableColumn + index op ops.
Proof.
move=> un opin; rewrite -{1}(nth_index 0 opin) opColumnsOf_nth //.
by rewrite index_mem.
Qed.

Lemma coeffRow_build_objective prob fill lastOp T v :
  uniq (getOperations prob) -> lastOp \in getOperations prob ->
  coeffRow (buildTableau prob fill lastOp T) objectiveRow v =
  if v == index lastOp (getOperations prob) then 1%Z else 0%Z.
Proof.
move=> un lin; rewrite /coeffRow.
have -> : nonBasicVariables (buildTableau prob fill lastOp T)
          = iota 0 (size (getOperations prob)) by rewrite buildTableau_eq.
rewrite mem_iota add0n leq0n andTb; case: ifP => [ltv|gev].
  by rewrite index_iota0 // tab_build_objective opColumnsOf_index.
case: eqP => // ev; move: gev; rewrite ev index_mem lin.
by [].
Qed.

Lemma build_dualFeasible prob fill lastOp T :
  dualFeasible (buildTableau prob fill lastOp T).
Proof.
move=> v; rewrite /coeffRow andFb; case: ifP => // _.
by rewrite tab_build_objective; case: ifP.
Qed.

Lemma rowRhs_build_objective prob fill lastOp T tau :
  uniq (getOperations prob) -> lastOp \in getOperations prob ->
  rowRhs (buildTableau prob fill lastOp T) tau objectiveRow = 0%Z.
Proof.
by move=> un lin; rewrite /rowRhs !tab_build_objective opColumnsOf_index.
Qed.

Lemma numVariables_build prob fill lastOp T :
  numVariables (buildTableau prob fill lastOp T) =
  size (getOperations prob) + size (allDependences prob).
Proof.
by rewrite buildTableau_eq /numVariables /= /firstNonBasicVariableColumn addKn subn1.
Qed.

Lemma objectiveGap_build prob fill lastOp T x tau :
  uniq (getOperations prob) -> lastOp \in getOperations prob ->
  objectiveGap (buildTableau prob fill lastOp T) x tau =
  x (index lastOp (getOperations prob)).
Proof.
move=> un lin; rewrite /objectiveGap rowRhs_build_objective // /rowSum.
rewrite (@sumZ_single _ _ (index lastOp (getOperations prob))).
- by rewrite numVariables_build ltn_addr // index_mem.
- by move=> v _ /negbTE ne; rewrite coeffRow_build_objective // ne.
by rewrite coeffRow_build_objective // eqxx; lia.
Qed.

Lemma fillsWith_baseFill prob fill delta : fillsWith prob fill delta -> baseFill prob fill.
Proof. by move=> fw n dep c le2; rewrite fw; case: eqP le2 => // ->. Qed.

Lemma sumZ_indicator n k (x : nat -> Z) (a : Z) :
  k < n -> sumZ n (fun v => if v == k then a * x v else 0)%Z = (a * x k)%Z.
Proof.
move=> ltk; rewrite (@sumZ_single _ _ k) ?eqxx //.
by move=> v _ /negbTE->.
Qed.

Lemma rowSum_build prob fill delta lastOp T x k :
  validProblem prob -> noSelfDependence prob -> fillsWith prob fill delta ->
  k < size (allDependences prob) ->
  rowSum (buildTableau prob fill lastOp T) x (firstConstraintRow + k) =
  let dep := nth (Dep 0 0) (allDependences prob) k in
  (x (size (getOperations prob) + k)%nat
   + x (index (getSource dep) (getOperations prob))
   - x (index (getDestination dep) (getOperations prob)))%Z.
Proof.
move=> [un ends] noself fw ltk /=.
set dep := nth _ _ k; set N := size _.
have din : dep \in allDependences prob by rewrite mem_nth.
case: (ends _ din) => sin tin; have ne := noself _ din.
have ltsrc : index (getSource dep) (getOperations prob) < N by rewrite index_mem.
have ltdst : index (getDestination dep) (getOperations prob) < N by rewrite index_mem.
rewrite /rowSum numVariables_build -/N.
rewrite (@sumZ_ext _ _ (fun v =>
  (if v == (N + k)%nat then 1 * x v else 0)
  + ((if v == index (getSource dep) (getOperations prob) then 1 * x v else 0)
     + (if v == index (getDestination dep) (getOperations prob)
        then -1 * x v else 0)))%Z).
  move=> v ltv; have bf := fillsWith_baseFill fw; rewrite -/(coeff _ k v) coeff_build //.
  cbv zeta; rewrite -/N -/dep !opColumnsOf_index // !eqn_add2l.
  case: ltnP => [ltvN|leNv].
    have -> : (v == N + k) = false by apply/negbTE; rewrite neq_ltn ltn_addr.
    case: (v =P index (getDestination dep) _) => [ev|_].
      case: (v =P index (getSource dep) _) => [ev'|_]; last by lia.
      move: ne; rewrite -(nth_index 0 sin) -(nth_index 0 tin) -ev -ev' eqxx.
      by [].
    by case: eqP => _; lia.
  have -> : (v == index (getSource dep) (getOperations prob)) = false.
    by apply/negbTE; rewrite neq_ltn (leq_trans ltsrc leNv) orbT.
  have -> : (v == index (getDestination dep) (getOperations prob)) = false.
    by apply/negbTE; rewrite neq_ltn (leq_trans ltdst leNv) orbT.
  by case: eqP => _; lia.
rewrite !sumZ_add !sumZ_indicator ?ltn_add2l ?ltn_addr //.
by lia.
Qed.

Lemma rowRhs_build prob fill delta lastOp T tau k :
  validProblem prob -> latenciesInRange prob -> fillsWith prob fill delta ->
  k < size (allDependences prob) ->
  rowRhs (buildTableau prob fill lastOp T) tau (firstConstraintRow + k) =
  let dep := nth (Dep 0 0) (allDependences prob) k in
  (- latencyOf prob dep + delta dep * tau)%Z.
Proof.
move=> [un ends] inrange fw ltk /=; set dep := nth _ _ k.
have din : dep \in allDependences prob by rewrite mem_nth.
case: (ends _ din) => sin tin.
rewrite /rowRhs !tab_build_row // !fw -/dep eqxx.
have -> : (parameter1Column == parameterTColumn) = false by [].
rewrite nth_fillConstraintRow !opColumnsOf_index //.
rewrite -/(latencyOf prob dep) stored_latency //.
by have := inrange _ din; lia.
Qed.

Lemma satisfies_build prob fill delta lastOp T x tau :
  validProblem prob -> noSelfDependence prob -> latenciesInRange prob ->
  fillsWith prob fill delta ->
  satisfies (buildTableau prob fill lastOp T) x tau <->
  (forall k, k < size (allDependences prob) ->
     let dep := nth (Dep 0 0) (allDependences prob) k in
     (x (size (getOperations prob) + k)%nat
      + x (index (getSource dep) (getOperations prob))
      - x (index (getDestination dep) (getOperations prob))
      = - latencyOf prob dep + delta dep * tau)%Z).
Proof.
move=> vp noself inrange fw.
have enr : nRows (buildTableau prob fill lastOp T) = (size (allDependences prob)).+1.
  by rewrite buildTableau_eq.
split=> [sat k ltk|eqs r]; last first.
  rewrite enr => /andP[lo hi].
  have ltk : r - firstConstraintRow < size (allDependences prob).
    by move: lo hi; rewrite /firstConstraintRow => a b; nat_lia.
  have er : r = firstConstraintRow + (r - firstConstraintRow) by rewrite subnKC.
  move: (r - firstConstraintRow) ltk er => k ltk ->.
  rewrite (rowSum_build lastOp T x vp noself fw ltk).
  by rewrite (rowRhs_build lastOp T tau vp inrange fw ltk); apply: eqs.
have := sat (firstConstraintRow + k); rewrite enr leq_addr /= => /(_ ltk).
by rewrite (rowSum_build lastOp T x vp noself fw ltk) (rowRhs_build lastOp T tau vp inrange fw ltk).
Qed.

Lemma rowValue_rowRhs s r : rowValue s r = rowRhs s (parameterT s) r.
Proof. by []. Qed.

Lemma partitioned_in s v :
  partitioned s ->
  (v \in basicVariables s ++ nonBasicVariables s) = (v < numVariables s).
Proof. by case=> pe _ _; rewrite (perm_mem pe) mem_iota add0n. Qed.

Lemma rowSum_solution s r :
  partitioned s -> firstConstraintRow <= r < nRows s ->
  rowSum s (solution s) r = rowValue s r.
Proof.
move=> pa /andP[lo hi]; case: (partitioned_uniq pa) => ub unb dis.
case: (pa) => _ snb sb.
have ltk : r - firstConstraintRow < size (basicVariables s).
  by rewrite sb; move: lo hi; rewrite /firstConstraintRow => a b; nat_lia.
set k := nth 0 (basicVariables s) (r - firstConstraintRow).
have kin : k \in basicVariables s by rewrite mem_nth.
have knb : (k \in nonBasicVariables s) = false.
  by apply/negbTE/negP => /(dis _ kin).
rewrite /rowSum (@sumZ_single _ _ k).
- by rewrite -(partitioned_in _ pa) mem_cat kin.
- move=> v _ /negbTE nek; rewrite /coeffRow /solution.
  case: ifP => [vnb|_].
    case: ifP => [vb|_]; last by lia.
    by case: (dis _ vb vnb).
  by rewrite lo nek.
rewrite /coeffRow /solution knb lo eqxx kin index_uniq // subnKC //.
by cbn [andb]; lia.
Qed.

Lemma rowSum_solution_objective s :
  partitioned s -> rowSum s (solution s) objectiveRow = 0%Z.
Proof.
move=> pa; case: (partitioned_uniq pa) => _ _ dis.
apply: sumZ_zero => v _; rewrite /coeffRow /solution.
case: ifP => [vnb|_] //.
case: ifP => [vb|_]; last by lia.
by case: (dis _ vb vnb).
Qed.

Lemma solution_satisfies s :
  partitioned s -> satisfies s (solution s) (parameterT s).
Proof. by move=> pa r inr; rewrite rowSum_solution. Qed.

Lemma solution_nonNegative s :
  partitioned s -> noViolatedRow s -> nonNegative (solution s).
Proof.
move=> [_ _ sb] ok v; rewrite /solution; case: ifP => // vb.
apply: ok; rewrite leq_addr /=.
by move: vb; rewrite -index_mem sb /firstConstraintRow => a; nat_lia.
Qed.

(** On the final tableau the basic solution minimises the objective among
    the non-negative solutions of the initial tableau. *)
Lemma solution_optimal s0 s x :
  solveInv s0 s -> nonNegative x -> satisfies s0 x (parameterT s) ->
  (objectiveGap s0 (solution s) (parameterT s)
   <= objectiveGap s0 x (parameterT s))%Z.
Proof.
move=> [[_ pa _] df _ sols obj] xge0 sat0.
have sat : satisfies s x (parameterT s) by apply/sols.
rewrite -(obj _ _ sat) -(obj _ _ (solution_satisfies pa)) /objectiveGap.
rewrite rowSum_solution_objective //.
suff : (0 <= rowSum s x objectiveRow)%Z by lia.
by apply: sumZ_ge0 => v _; have := df v; have := xge0 v; nia.
Qed.

(** ** What [storeStartTimes] writes *)

Lemma startTimeWritesE ops s :
  startTimeWrites ops s =
  [seq (nth 0 ops (nth 0 (basicVariables s) i), rowValue s (firstConstraintRow + i))
     | i <- iota 0 (size (basicVariables s))
     & nth 0 (basicVariables s) i < size ops]
  ++ [seq (nth 0 ops (nth 0 (nonBasicVariables s) i), 0%Z)
     | i <- iota 0 (size (nonBasicVariables s))
     & nth 0 (nonBasicVariables s) i < size ops].
Proof.
rewrite /startTimeWrites /for_range !subn0.
rewrite (foldl_rcons_if (fun i => nth 0 (basicVariables s) i < size ops)
          (fun i => (nth 0 ops (nth 0 (basicVariables s) i),
                     rowValue s (firstConstraintRow + i)))).
by rewrite (foldl_rcons_if (fun i => nth 0 (nonBasicVariables s) i < size ops)
          (fun i => (nth 0 ops (nth 0 (nonBasicVariables s) i), 0%Z))).
Qed.

Lemma applyWrites_notin ws prob op :
  op \notin [seq w.1 | w <- ws] ->
  getStartTime (applyWrites prob ws) op = getStartTime prob op.
Proof.
elim: ws prob => [|w ws IH] prob //=.
rewrite inE negb_or => /andP[/negbTE ne nin].
by rewrite -/(applyWrites _ ws) IH //= ne.
Qed.

Lemma applyWrites_in ws prob op z :
  uniq [seq w.1 | w <- ws] -> (op, z) \in ws ->
  getStartTime (applyWrites prob ws) op = Some z.
Proof.
elim: ws prob => [|w ws IH] prob //= /andP[nin un].
rewrite inE => /orP[/eqP ew|win]; last exact: IH.
move: nin; rewrite -ew /= => nin.
by rewrite -/(applyWrites _ ws) applyWrites_notin //= eqxx.
Qed.

Lemma getStartTime_storeStartTimes prob s op :
  uniq (getOperations prob) -> partitioned s ->
  size (getOperations prob) = nColumns s - firstNonBasicVariableColumn ->
  op \in getOperations prob ->
  getStartTime (storeStartTimes prob s) op
  = Some (solution s (index op (getOperations prob))).
Proof.
move=> un pa szo opin; set ops := getOperations prob.
have unw : uniq [seq w.1 | w <- startTimeWrites ops s].
  by rewrite (perm_uniq (partitioned_writes pa szo)).
rewrite /storeStartTimes -/(applyWrites _ _) -/ops.
apply: applyWrites_in => //; rewrite startTimeWritesE mem_cat.
have ltv : index op ops < size ops by rewrite index_mem.
have : index op ops \in basicVariables s ++ nonBasicVariables s.
  by rewrite partitioned_in // /numVariables -szo ltn_addr.
case: (partitioned_uniq pa) => _ _ dis.
rewrite mem_cat /solution; case: ifP => [vb _|vb /= vnb].
  apply/orP; left; apply/mapP; exists (index (index op ops) (basicVariables s)).
    by rewrite mem_filter nth_index // ltv mem_iota add0n index_mem.
  by rewrite nth_index // nth_index.
apply/orP; right; apply/mapP; exists (index (index op ops) (nonBasicVariables s)).
  by rewrite mem_filter nth_index // ltv mem_iota add0n index_mem.
by rewrite nth_index // nth_index.
Qed.

Lemma valuation_satisfies prob fill delta lastOp T sigma tau :
  validProblem prob -> noSelfDependence prob -> latenciesInRange prob ->
  fillsWith prob fill delta ->
  satisfies (buildTableau prob fill lastOp T) (valuation prob delta sigma tau) tau.
Proof.
move=> vp noself inrange fw.
apply/(satisfies_build lastOp T _ _ vp noself inrange fw) => k ltk dep.
case: (vp) => un ends.
have din : dep \in allDependences prob by rewrite mem_nth.
case: (ends _ din) => sin tin.
rewrite /valuation !index_mem sin tin !nth_index //.
rewrite ltnNge leq_addr ltn_add2l ltk addKn -/dep /slackOf.
by cbn [negb]; lia.
Qed.

Lemma valuation_nonNegative prob delta sigma tau :
  (forall op, op \in getOperations prob -> (0 <= sigma op)%Z) ->
  meetsDependences prob delta sigma tau ->
  nonNegative (valuation prob delta sigma tau).
Proof.
move=> sge0 meets v; rewrite /valuation.
case: ltnP => [ltv|lev]; first by apply: sge0; rewrite mem_nth.
case: ltnP => [ltv|_]; last by lia.
have ltk : v - size (getOperations prob) < size (allDependences prob).
  by move: lev ltv => a b; nat_lia.
set dep := nth _ _ _; have din : dep \in allDependences prob by rewrite mem_nth.
by have := meets _ din; rewrite /slackOf; lia.
Qed.

Lemma satisfies_meets prob fill delta lastOp T x tau :
  validProblem prob -> noSelfDependence prob -> latenciesInRange prob ->
  fillsWith prob fill delta ->
  nonNegative x -> satisfies (buildTableau prob fill lastOp T) x tau ->
  meetsDependences prob delta (startTimesOf prob x) tau.
Proof.
move=> vp noself inrange fw xge0.
move=> /(satisfies_build lastOp T _ _ vp noself inrange fw) eqs dep din.
have ltk : index dep (allDependences prob) < size (allDependences prob).
  by rewrite index_mem.
have := eqs _ ltk; rewrite /= nth_index // /startTimesOf.
by have := xge0 (size (getOperations prob) + index dep (allDependences prob)); lia.
Qed.

Lemma lowest_le ops sigma op : op \in ops -> (lowest ops sigma <= sigma op)%Z.
Proof.
elim: ops => [|o ops IH] //=; rewrite inE => /orP[/eqP->|/IH]; lia.
Qed.

Lemma meets_ext prob delta delta' sigma tau :
  (forall dep, dep \in allDependences prob -> delta dep = delta' dep) ->
  meetsDependences prob delta sigma tau -> meetsDependences prob delta' sigma tau.
Proof. by move=> ext meets dep din; rewrite -ext //; apply: meets. Qed.

Lemma meets_shift prob delta sigma tau c :
  meetsDependences prob delta sigma tau ->
  meetsDependences prob delta (fun op => sigma op - c)%Z tau.
Proof. by move=> meets dep /meets; lia. Qed.

(** ** The solve loop on a scheduling problem *)

Section Solved.

Variables (prob : Problem) (fill : FillRow) (delta : Dependence -> Z).
Variables (lastOp : Operation) (T : Z).
Hypothesis valid : validProblem prob.
Hypothesis noself : noSelfDependence prob.
Hypothesis inrange : latenciesInRange prob.
Hypothesis fills : fillsWith prob fill delta.

Let s0 := buildTableau prob fill lastOp T.

Lemma build_solveInv s : solveReaches s0 s -> solveInv s0 s.
Proof.
move=> re; apply: reaches_solveInv re _ _.
  exact: build_tableauInv (fillsWith_baseFill fills).
exact: build_dualFeasible.
Qed.

Lemma solved_size s :
  solveReaches s0 s ->
  size (getOperations prob) = nColumns s - firstNonBasicVariableColumn.
Proof.
case/reaches_frame=> _ ->.
by rewrite /s0 buildTableau_eq /= /firstNonBasicVariableColumn addKn.
Qed.

Lemma solved_nonNegative s :
  solveReaches s0 s -> solveStep s = Return success -> nonNegative (solution s).
Proof.
move=> /build_solveInv[[_ pa _] _ _ _ _] ret.
by apply: solution_nonNegative => //; move: (solveStepP s); rewrite ret.
Qed.

(** The start times written back meet every dependence. *)
Lemma solved_meets s :
  solveReaches s0 s -> solveStep s = Return success ->
  meetsDependences prob delta (startTimesOf prob (solution s)) (parameterT s).
Proof.
move=> re ret; apply: (satisfies_meets (lastOp := lastOp) (T := T) valid noself inrange fills).
  exact: solved_nonNegative.
case: (build_solveInv re) => [[_ pa _] _ _ sols _].
by apply/sols; apply: solution_satisfies.
Qed.

(** No schedule without negative start times that meets the dependences
    puts [lastOp] earlier. *)
Lemma solved_optimal s sigma :
  lastOp \in getOperations prob ->
  solveReaches s0 s ->
  (forall op, op \in getOperations prob -> (0 <= sigma op)%Z) ->
  meetsDependences prob delta sigma (parameterT s) ->
  (startTimesOf prob (solution s) lastOp <= sigma lastOp)%Z.
Proof.
move=> lin re sge0 meets; case: (valid) => un _.
have := solution_optimal (build_solveInv re)
          (valuation_nonNegative sge0 meets)
          (@valuation_satisfies prob fill delta lastOp T sigma (parameterT s)
             valid noself inrange fills).
rewrite !objectiveGap_build // /valuation /startTimesOf.
by rewrite index_mem lin nth_index.
Qed.

(** No parameter between the initial and the final one admits a schedule. *)
Lemma solved_infeasibleBelow s :
  (0 <= T)%Z -> solveReaches s0 s -> infeasibleBelow s0 s.
Proof.
move=> T0; elim=> [|s1 s2 re IH st]; first by move=> tau x; lia.
apply: step_infeasibleBelow st (build_solveInv re) _ IH.
have := reaches_parameterT_ge re; rewrite {1 2}/s0 buildTableau_eq /=.
by move=> /(_ T0); lia.
Qed.

Lemma solved_least s sigma tau :
  (0 <= T)%Z -> solveReaches s0 s -> (T <= tau)%Z ->
  meetsDependences prob delta sigma tau -> (parameterT s <= tau)%Z.
Proof.
move=> T0 re letau meets.
case: (Z.lt_ge_cases tau (parameterT s)) => [lt|]; last by lia.
set sigma' := (fun op => sigma op - lowest (getOperations prob) sigma)%Z.
have sge0 : forall op, op \in getOperations prob -> (0 <= sigma' op)%Z.
  by move=> op opin; have := @lowest_le _ sigma _ opin; rewrite /sigma'; lia.
have meets' : meetsDependences prob delta sigma' tau by apply: meets_shift.
have range : (parameterT s0 <= tau < parameterT s)%Z.
  by rewrite /s0 buildTableau_eq /=; lia.
case: (solved_infeasibleBelow T0 re range (valuation_nonNegative sge0 meets')).
exact: valuation_satisfies.
Qed.

(** What the scheduler reads back from the problem afterwards. *)
Lemma solved_startTimes s op :
  solveReaches s0 s -> op \in getOperations prob ->
  getStartTime (storeStartTimes prob s) op
  = Some (startTimesOf prob (solution s) op).
Proof.
move=> re opin; case: (valid) => un _.
case: (build_solveInv re) => [[_ pa _] _ _ _ _].
by apply: getStartTime_storeStartTimes => //; apply: solved_size.
Qed.

End Solved.

(** ** Relaxation of start times along the dependences *)

Lemma earliestAfter_ge0 deps w f op : (0 <= earliestAfter deps w f op)%Z.
Proof.
rewrite /earliestAfter; elim: deps => [|dep deps IH] /=; first by lia.
by case: ifP => _; lia.
Qed.

Lemma earliestAfter_ge deps w f dep :
  dep \in deps ->
  (f (getSource dep) + w dep <= earliestAfter deps w f (getDestination dep))%Z.
Proof.
rewrite /earliestAfter; elim: deps => [|d deps IH] //=.
rewrite inE => /orP[/eqP<-|/IH le]; first by rewrite eqxx; lia.
by case: ifP => _; lia.
Qed.

Lemma earliestAfter_attained deps w f op :
  earliestAfter deps w f op = 0%Z \/
  exists dep, [/\ dep \in deps, getDestination dep = op
    & earliestAfter deps w f op = (f (getSource dep) + w dep)%Z].
Proof.
rewrite /earliestAfter; elim: deps => [|d deps IH] /=; first by left.
have weaken :
  (exists dep, [/\ dep \in deps, getDestination dep = op
     & foldr (fun dep acc => if getDestination dep == op
                 then Z.max (f (getSource dep) + w dep) acc
                 else acc) 0%Z deps
       = (f (getSource dep) + w dep)%Z]) ->
  exists dep, [/\ dep \in d :: deps, getDestination dep = op
     & foldr (fun dep acc => if getDestination dep == op
                 then Z.max (f (getSource dep) + w dep) acc
                 else acc) 0%Z deps
       = (f (getSource dep) + w dep)%Z].
  by case=> dep [din dst e]; exists dep; split=> //; rewrite inE din orbT.
case: eqP => [dst|_]; last by case: IH => [|/weaken]; [left|right].
set rest := foldr _ _ _ in IH weaken *.
case: (Z.max_spec (f (getSource d) + w d) rest) => [[_ ->]|[_ ->]].
  by case: IH => [|/weaken]; [left|right].
by right; exists d; split=> //; rewrite inE eqxx.
Qed.

Lemma earliestAfter_ext deps w f g op :
  (forall dep, dep \in deps -> getDestination dep = op ->
     f (getSource dep) = g (getSource dep)) ->
  earliestAfter deps w f op = earliestAfter deps w g op.
Proof.
rewrite /earliestAfter; elim: deps => [|d deps IH] //= ext.
have ext' : forall dep, dep \in deps -> getDestination dep = op ->
    f (getSource dep) = g (getSource dep).
  by move=> dep din; apply: ext; rewrite inE din orbT.
rewrite (IH ext'); case: eqP => // dst.
by rewrite ext // inE eqxx.
Qed.

Lemma relaxed_ge0 deps w n op : (0 <= relaxed deps w n op)%Z.
Proof. by case: n => [|n] /=; [lia|apply: earliestAfter_ge0]. Qed.

Lemma relaxed_ge deps w n dep :
  dep \in deps ->
  (relaxed deps w n (getSource dep) + w dep
   <= relaxed deps w n.+1 (getDestination dep))%Z.
Proof. exact: earliestAfter_ge. Qed.

(** ** The as-soon-as-possible schedule of an acyclic problem *)

Lemma asap_ge0 prob n op : (0 <= asap prob n op)%Z.
Proof. exact: relaxed_ge0. Qed.

(** Every value of the schedule is the length of a path. *)
Lemma asap_path prob n op :
  validProblem prob -> op \in getOperations prob -> pathTo prob op (asap prob n op).
Proof.
move=> [_ ends]; rewrite /asap.
elim: n op => [|n IH] op opin /=; first exact: path_start.
set f := relaxed _ _ n in IH *.
case: (earliestAfter_attained (allDependences prob) (latencyOf prob) f op).
  by move=> ->; apply: path_start.
move=> [dep [din <- ->]].
by apply: path_step => //; apply: IH; case: (ends _ din).
Qed.

(** Once the rounds exceed the rank of an operation its start is settled. *)
Lemma asap_stable prob rank n op :
  (forall dep, dep \in allDependences prob ->
     rank (getSource dep) < rank (getDestination dep)) ->
  rank op < n -> asap prob n.+1 op = asap prob n op.
Proof.
move=> ranked; rewrite /asap; elim: n op => [|n IH] op // ltr.
rewrite [LHS]/= [RHS]/=; apply: earliestAfter_ext => dep din dst.
by apply: IH; apply: leq_trans (ranked _ din) _; rewrite dst -ltnS.
Qed.

Lemma rankBound_gt rank ops op : op \in ops -> rank op < rankBound rank ops.
Proof.
rewrite /rankBound ltnS; elim: ops => [|o ops IH] //=.
rewrite inE => /orP[/eqP->|/IH le]; first exact: leq_maxl.
by rewrite leq_max le orbT.
Qed.

Lemma asap_meets prob rank :
  validProblem prob ->
  (forall dep, dep \in allDependences prob ->
     rank (getSource dep) < rank (getDestination dep)) ->
  meetsDependences prob (fun _ => 0%Z)
    (asap prob (rankBound rank (getOperations prob))) 0%Z.
Proof.
move=> [_ ends] ranked dep din; case: (ends _ din) => _ tin.
rewrite -(asap_stable ranked (rankBound_gt rank tin)).
set F := rankBound rank (getOperations prob).
have := @relaxed_ge (allDependences prob) (latencyOf prob) F dep din.
by rewrite /asap; lia.
Qed.

(** A schedule without negative start times that meets the dependences
    starts no operation before the paths that lead to it are through. *)
Lemma path_lower_bound prob sigma tau op len :
  (forall op, op \in getOperations prob -> (0 <= sigma op)%Z) ->
  meetsDependences prob (fun _ => 0%Z) sigma tau ->
  pathTo prob op len -> (len <= sigma op)%Z.
Proof.
move=> sge0 meets; elim=> [o /sge0|dep l din _ IH] //.
by have := meets _ din; lia.
Qed.

Lemma acyclic_noSelfDependence prob : acyclic prob -> noSelfDependence prob.
Proof.
move=> [rank ranked] dep /ranked; apply: contraTneq => ->.
by rewrite ltnn.
Qed.

Lemma weightSum_cat w p q :
  weightSum w (p ++ q) = (weightSum w p + weightSum w q)%Z.
Proof. by elim: p => [|d p IH] //=; rewrite IH; lia. Qed.

Lemma weightSum_sub a b T p :
  weightSum (fun d => a d - b d * T)%Z p
  = (weightSum a p - weightSum b p * T)%Z.
Proof. by elim: p => [|d p IH] //=; rewrite IH; lia. Qed.

Lemma walk_end deps x p y : walk deps x p y -> endOf x p = y.
Proof.
elim: p x => [|d p IH] x /=; first by move/eqP.
by case/and3P=> _ _ /IH.
Qed.

Lemma walk_cat deps x p q z :
  walk deps x (p ++ q) z
  = walk deps x p (endOf x p) && walk deps (endOf x p) q z.
Proof.
elim: p x => [|d p IH] x /=; first by rewrite /endOf /= eqxx.
by rewrite IH /endOf /= !andbA.
Qed.

Lemma walk_all deps x p y d : walk deps x p y -> d \in p -> d \in deps.
Proof.
elim: p x => [|e p IH] x //= /and3P[ein _ /IH rest].
by rewrite inE => /orP[/eqP->|].
Qed.

(** Start times that meet the dependences bound every walk. *)
Lemma walk_telescope deps w sigma x p y :
  (forall d, d \in deps ->
     (w d <= sigma (getDestination d) - sigma (getSource d))%Z) ->
  walk deps x p y -> (weightSum w p <= sigma y - sigma x)%Z.
Proof.
move=> meets; elim: p x => [|d p IH] x /=; first by move/eqP->; lia.
by case/and3P=> /meets le /eqP<- /IH; lia.
Qed.

Lemma dup_split (p : seq Dependence) :
  ~~ uniq [seq getDestination d | d <- p] ->
  exists p1 d1 p2 d2 p3,
    p = p1 ++ d1 :: p2 ++ d2 :: p3 /\ getDestination d1 = getDestination d2.
Proof.
elim: p => [|d p IH] //=; rewrite negb_and negbK => /orP[/mapP[d2 d2in e]|/IH].
  have [p2 [p3 ep]] : exists p2 p3, p = p2 ++ d2 :: p3.
    elim: p d2in {IH} => [|a p IHp] //; rewrite inE => /orP[/eqP->|/IHp].
      by exists [::], p.
    by move=> [p2 [p3 ->]]; exists (a :: p2), p3.
  by exists [::], d, p2, d2, p3; rewrite ep.
by move=> [p1 [d1 [p2 [d2 [p3 [-> e]]]]]]; exists (d :: p1), d1, p2, d2, p3.
Qed.

Lemma all_or_common (A : eqType) (s : seq A) (P : A -> Prop) (C : Prop) :
  (forall a, a \in s -> P a \/ C) -> (forall a, a \in s -> P a) \/ C.
Proof.
elim: s => [|a s IH] each; first by left.
have ain : a \in a :: s by rewrite inE eqxx.
case: (each a ain) => [pa|]; last by right.
have each' b : b \in s -> P b \/ C.
  by move=> bin; apply: each; rewrite inE bin orbT.
case: (IH each') => [all|]; last by right.
by left=> b; rewrite inE => /orP[/eqP->|/all].
Qed.

Section Walks.

Variables (ops : seq Operation) (deps : seq Dependence) (w : Dependence -> Z).
Hypothesis ends : forall d, d \in deps -> getDestination d \in ops.

(** A walk is no longer than there are operations, or it can be cut short
    without loss of weight, or it runs through a cycle of positive weight. *)
Lemma walk_shorten n p x y :
  size p <= n -> walk deps x p y ->
  (exists p', [/\ walk deps x p' y, size p' <= size ops
                & (weightSum w p <= weightSum w p')%Z]) \/
  (exists c x', [/\ c <> [::], walk deps x' c x' & (0 < weightSum w c)%Z]).
Proof.
elim: n p => [|n IH] p.
  by rewrite leqn0 size_eq0 => /eqP-> wk; left; exists [::]; split=> //; lia.
move=> szp wk; case: (leqP (size p) (size ops)) => [le|gt].
  by left; exists p; split=> //; lia.
have /dup_split[p1 [d1 [p2 [d2 [p3 [ep edst]]]]]] :
    ~~ uniq [seq getDestination d | d <- p].
  apply/negP => un; move: gt; rewrite ltnNge -(size_map getDestination p).
  move/negP; apply; apply: uniq_leq_size un _ => o /mapP[d din ->].
  exact: ends (walk_all wk din).
move: wk szp; rewrite ep walk_cat /= walk_cat /= => /and3P[wk1 d1in].
case/and3P=> src1 wk2 /and3P[d2in src2 wk3] szp.
case: (Z.lt_ge_cases 0 (weightSum w (p2 ++ [:: d2]))) => [pos|neg].
  right; exists (p2 ++ [:: d2]), (getDestination d1); split=> //.
    by case: (p2).
  by rewrite walk_cat /= wk2 d2in src2 edst eqxx.
have szp' : size (p1 ++ d1 :: p3) <= n.
  by move: szp; rewrite !size_cat /= !size_cat /= => a; nat_lia.
have wk' : walk deps x (p1 ++ d1 :: p3) y.
  by rewrite walk_cat /= wk1 d1in src1 edst.
case: (IH _ szp' wk') => [[p' [wkp' sz' le']]|]; last by right.
left; exists p'; split=> //.
move: neg le'; rewrite !weightSum_cat /= !weightSum_cat /=.
by lia.
Qed.

(** The start times after [n] rounds are the weights of walks of at most
    [n] dependences, and no such walk weighs more. *)
Lemma relaxed_attained n y :
  exists x p, [/\ walk deps x p y, size p <= n
                & relaxed deps w n y = weightSum w p].
Proof.
elim: n y => [|n IH] y; first by exists y, [::]; split=> //=.
rewrite [relaxed _ _ _ _]/=.
case: (earliestAfter_attained deps w (relaxed deps w n) y) => [->|].
  by exists y, [::]; split=> //=.
move=> [d [din dst ->]]; case: (IH (getSource d)) => x [p [wk sz ->]].
exists x, (p ++ [:: d]); split.
- by rewrite walk_cat (walk_end wk) wk /= din dst !eqxx.
- by rewrite size_cat /= addn1.
by rewrite weightSum_cat /=; lia.
Qed.

Lemma relaxed_upper n p x y :
  size p <= n -> walk deps x p y -> (weightSum w p <= relaxed deps w n y)%Z.
Proof.
elim: n p y => [|n IH] p y.
  by rewrite leqn0 size_eq0 => /eqP-> _ /=; lia.
case/lastP: p => [|p d].
  by move=> _ _; have := @relaxed_ge0 deps w n.+1 y; rewrite [weightSum _ _]/=; lia.
rewrite size_rcons ltnS -cats1 walk_cat /= => sz /and4P[wk din /eqP src /eqP<-].
have := IH _ _ sz wk; rewrite -src => le.
have := @relaxed_ge deps w n d din.
by rewrite [relaxed _ _ n.+1 _]/= weightSum_cat [weightSum _ [:: d]]/=; lia.
Qed.

(** After as many rounds as there are operations the start times meet the
    dependences, unless some cycle has positive weight. *)
Lemma relaxed_potential :
  (forall d, d \in deps ->
     (w d <= relaxed deps w (size ops) (getDestination d)
             - relaxed deps w (size ops) (getSource d))%Z) \/
  (exists c x, [/\ c <> [::], walk deps x c x & (0 < weightSum w c)%Z]).
Proof.
set C := exists c x, _.
have settled y : y \in ops ->
    (relaxed deps w (size ops).+1 y <= relaxed deps w (size ops) y)%Z \/ C.
  move=> yin; case: (relaxed_attained (size ops).+1 y) => x [p [wk sz ->]].
  case: (walk_shorten sz wk) => [[p' [wk' sz' le]]|]; last by right.
  by left; have := relaxed_upper sz' wk'; lia.
have each d : d \in deps ->
    (w d <= relaxed deps w (size ops) (getDestination d)
            - relaxed deps w (size ops) (getSource d))%Z \/ C.
  move=> din; case: (settled _ (ends din)) => [le|]; last by right.
  by left; have := @relaxed_ge deps w (size ops) d din; lia.
exact: all_or_common each.
Qed.

End Walks.

Lemma ceilDiv_le a b q : (0 < b)%Z -> (a <= b * q)%Z -> (ceilDiv a b <= q)%Z.
Proof.
move=> pos le; rewrite /ceilDiv.
have : (- q <= - a / b)%Z by apply: Z.div_le_lower_bound => //; lia.
by lia.
Qed.

Lemma ceilDiv_eq a b q :
  (0 < b)%Z -> (b * (q - 1) < a <= b * q)%Z -> ceilDiv a b = q.
Proof.
move=> pos range; rewrite /ceilDiv.
have <- : (- q = - a / b)%Z; last by lia.
by apply: (Z.div_unique _ _ _ (b * q - a)%Z); lia.
Qed.

(** ** Cycles and initiation intervals *)

Lemma meets_cyclesAllow (prob : CyclicProblem) sigma T :
  meetsDependences prob (distanceOf prob) sigma T -> cyclesAllow prob T.
Proof.
move=> meets c [_ [op wk]].
have le : forall d, d \in allDependences prob ->
    (latencyOf prob d - distanceOf prob d * T
     <= sigma (getDestination d) - sigma (getSource d))%Z.
  by move=> d /meets; lia.
have := walk_telescope le wk; rewrite weightSum_sub /latencySum /distanceSum.
by lia.
Qed.

(** For every [T] there are start times that meet the dependences, or a
    cycle whose latencies do not fit into [T] times its distances. *)
Lemma feasible_or_cycle (prob : CyclicProblem) T :
  validProblem prob ->
  (exists sigma, meetsDependences prob (distanceOf prob) sigma T) \/
  (exists2 c, dependenceCycle prob c
            & (distanceSum prob c * T < latencySum prob c)%Z).
Proof.
move=> [_ ends].
have ends' : forall d, d \in allDependences prob ->
    getDestination d \in getOperations prob by move=> d /ends[].
case: (relaxed_potential (fun d => latencyOf prob d - distanceOf prob d * T)%Z ends').
  move=> pot; left.
  exists (relaxed (allDependences prob)
            (fun d => latencyOf prob d - distanceOf prob d * T)%Z
            (size (getOperations prob))).
  by move=> d /pot; lia.
move=> [c [x [ne wk]]]; rewrite weightSum_sub => pos; right; exists c.
  by split=> //; exists x.
by rewrite /latencySum /distanceSum; lia.
Qed.

(** C1: on the single self-dependent operation of latency 4 and distance 1
    the cyclic scheduler succeeds with initiation interval 1 and start time
    3, not with 4 and 0: [fillConstraintRow] stores the coefficient [-1] of the
    destination over the [1] of the source when the two coincide. *)
Lemma selfLoop_schedule :
  exists prob,
    [/\ scheduleSimplexCyclic 2 selfLoopProblem 0 = Some (success, prob),
        getInitiationInterval prob = Some 1%Z
      & getStartTime prob 0 = Some 3%Z].
Proof. by eexists; split; [vm_compute; reflexivity| |]. Qed.

(** C5: every pivot the solve loop performs, in an acyclic or a cyclic solve,
    has pivot element [-1] and leaves the constraint rows' entries in the
    non-basic-variable columns in [{-1, 0, 1}] and the basic and non-basic
    variables a partition of the variable IDs; the two lists are as before
    but for the basic variable of the pivot row and the non-basic variable of
    the pivot column, which have changed places. *)
Theorem pivot_preserves_invariants (prob : Problem) (cprob : CyclicProblem)
    (lastOp : Operation) (s : SimplexSchedulerBase) (pivotRow pivotColumn : nat) :
  solveReaches (acyclicStart prob lastOp) s \/
  solveReaches (cyclicStart cprob lastOp) s ->
  findPivotRow s = Some pivotRow ->
  findPivotColumn s pivotRow = Some pivotColumn ->
  [/\ tab s pivotRow pivotColumn = (-1)%Z,
      forall r c,
        firstConstraintRow <= r < nRows (pivot s pivotRow pivotColumn) ->
        firstNonBasicVariableColumn <= c < nColumns (pivot s pivotRow pivotColumn) ->
        unit3 (tab (pivot s pivotRow pivotColumn) r c),
      partitioned (pivot s pivotRow pivotColumn),
      nonBasicVariables (pivot s pivotRow pivotColumn) =
        set_nth 0 (nonBasicVariables s) (pivotColumn - firstNonBasicVariableColumn)
          (nth 0 (basicVariables s) (pivotRow - firstConstraintRow))
    & basicVariables (pivot s pivotRow pivotColumn) =
        set_nth 0 (basicVariables s) (pivotRow - firstConstraintRow)
          (nth 0 (nonBasicVariables s) (pivotColumn - firstNonBasicVariableColumn))].
Proof.
move=> re /findPivotRow_some fv /findPivotColumn_some best.
have inv : tableauInv s.
  case: re => re; apply: reaches_tableauInv re _; apply: build_tableauInv.
    exact: baseFill_acyclic.
  exact: baseFill_cyclic.
have inv' := tableauInv_pivot inv fv best.
case: (pivot_choice_range fv best) => /andP[_ ltr] /andP[_ ltc] _.
case: (inv) => -[imp0 _ _] _ _.
case: (pivot_spec imp0 ltr ltc) => _ enb eb _ _.
split=> //; first exact: tableauInv_pivot_entry inv fv best.
- by move=> r c inr inc; apply: tableauInv_entry inv' inr inc.
by case: inv'.
Qed.

Lemma pivot_preserves_invariants_witness :
  partitioned (pivot (acyclicStart chainProblem 2) 1 3).
Proof.
by case: (@pivot_preserves_invariants chainProblem selfLoopProblem 2
            (acyclicStart chainProblem 2) 1 3
            (or_introl (reaches_start _)) erefl erefl).
Defined.


Lemma schedulers_write_only_on_success_witness :
  scheduleSimplex 2 twoCycleProblem 1 = Some (failure, twoCycleProblem).
Proof.
case: (schedulers_write_only_on_success 2 twoCycleProblem selfLoopProblem 1).
move=> acyclic _.
case run : (scheduleSimplex 2 twoCycleProblem 1) => [[r p]|]; last by [].
by move: (acyclic _ _ run); move: run; vm_compute => -[<- <-].
Defined.



Lemma chainProblem_valid : validProblem chainProblem.
Proof.
split=> // dep; rewrite /allDependences /= !inE.
by case/orP=> /eqP->.
Qed.

Lemma chainProblem_acyclic : acyclic chainProblem.
Proof.
exists id => dep; rewrite /allDependences /= !inE.
by case/orP=> /eqP->.
Qed.

Lemma chainProblem_inRange : latenciesInRange chainProblem.
Proof.
move=> dep; rewrite /allDependences /= !inE.
by case/orP=> /eqP->.
Qed.




Lemma recurrenceProblem_valid : validProblem recurrenceProblem.
Proof.
split=> // dep; rewrite /allDependences /= !inE.
by case/orP=> /eqP->.
Qed.

Lemma recurrenceProblem_noSelfDependence : noSelfDependence recurrenceProblem.
Proof.
move=> dep; rewrite /allDependences /= !inE.
by case/orP=> /eqP->.
Qed.

Lemma recurrenceProblem_inRange : latenciesInRange recurrenceProblem.
Proof.
move=> dep; rewrite /allDependences /= !inE.
by case/orP=> /eqP->.
Qed.

Lemma recurrenceProblem_distancesInRange : distancesInRange recurrenceProblem.
Proof.
move=> dep; rewrite /allDependences /= !inE.
by case/orP=> /eqP->.
Qed.

